(** * Wire-format codec of the Cursor API proxy (src/utils.js)

    A shallow embedding of [stringToHex], [chunkToUtf8String] and [gunzip],
    together with the pieces of the JavaScript and Node.js runtime they call
    (hexadecimal rendering of buffers and numbers, [String.prototype.slice],
    [parseInt], [RegExp.prototype.test]).

    Conventions.
    - A JavaScript string is the list of its UTF-16 code units ([jsstring]);
      strings and buffers have no length limit.
    - A [Buffer] / [Uint8Array] is a [list byte].
    - JavaScript numbers that occur here are lengths and offsets, all far
      below 2^53, so they are exact integers and are modelled in [N];
      the only way a [NaN] can arise is [parseInt], whose result is an
      [option N].
    - An [async] function is modelled by what its promise settles to: a
      value, or a thrown error ([completion]).
    - Module-level and ambient state (the [regex] object, the random source
      of [uuidv4]) is threaded explicitly, together with a record of the
      calls to [gunzip] and to the encoder.
    - The generated module [message.js] (protobuf classes [ChatMessage] and
      [ResMessage]), [zlib], [uuid] and the UTF-8 decoder of
      [Buffer.prototype.toString] are not part of the sources; they are
      parameters of the development ([MessageJs], [NodeJs]), taken to be
      functions of their arguments. *)

From Stdlib Require Import List Arith NArith Lia Bool String Ascii.
From Stdlib Require Import Init.Byte.
From Stdlib Require Strings.Byte.
From Equations Require Import Equations.
Import ListNotations.

Local Open Scope N_scope.

(** ** JavaScript strings *)

Module JS.

Definition code_unit := N.
Definition jsstring := list code_unit.

(** An ASCII literal of the source as a [jsstring]. *)
Definition lit (s : string) : jsstring :=
  map N_of_ascii (list_ascii_of_string s).

(** [s.length] *)
Definition len (s : jsstring) : N := N.of_nat (List.length s).

(** [s.slice(a, b)] for non-negative integer arguments: the code units at
    positions [a <= i < min b s.length]; empty when [b <= a]. *)
Definition slice (s : jsstring) (a b : N) : jsstring :=
  firstn (N.to_nat (b - a)) (skipn (N.to_nat a) s).

(** [s.padStart(n, '0')]: no effect when [s] already has [n] code units. *)
Definition padStart0 (n : N) (s : jsstring) : jsstring :=
  repeat 48 (N.to_nat (n - len s)) ++ s.

(** [s.toUpperCase()], exact on ASCII strings (the only ones it is applied
    to in this program: the output of [toString(16)] and [toString('hex')]). *)
Definition upper_unit (c : code_unit) : code_unit :=
  if (97 <=? c) && (c <=? 122) then c - 32 else c.

Definition toUpperCase (s : jsstring) : jsstring := map upper_unit s.

(** The digit character of a value below 16, lowercase as produced by
    [Number.prototype.toString(16)] and [Buffer.prototype.toString('hex')]. *)
Definition hex_digit (d : N) : code_unit :=
  if d <? 10 then 48 + d else 87 + d.

(** [n.toString(16)] for a non-negative integer [n]. *)
Fixpoint toString16_digits (fuel : nat) (n : N) (acc : jsstring) : jsstring :=
  match fuel with
  | O => acc
  | S fuel' =>
      if n =? 0 then acc
      else toString16_digits fuel' (n / 16) (hex_digit (n mod 16) :: acc)
  end.

Definition toString16 (n : N) : jsstring :=
  if n =? 0 then [48] else toString16_digits (N.to_nat (N.size n)) n [].

(** Value of a hexadecimal digit character, either case. *)
Definition hex_value (c : code_unit) : option N :=
  if (48 <=? c) && (c <=? 57) then Some (c - 48)
  else if (97 <=? c) && (c <=? 102) then Some (c - 87)
  else if (65 <=? c) && (c <=? 70) then Some (c - 55)
  else None.

(** [parseInt(s, 16)] on strings without leading white space, sign or
    [0x] prefix (a rendering by [toString('hex')] has none of them):
    the value of the longest prefix of hexadecimal digits, [None] being
    [NaN] when that prefix is empty. *)
Fixpoint parseInt16_from (acc : N) (s : jsstring) : N :=
  match s with
  | [] => acc
  | c :: s' =>
      match hex_value c with
      | Some d => parseInt16_from (16 * acc + d) s'
      | None => acc
      end
  end.

Definition parseInt16 (s : jsstring) : option N :=
  match s with
  | [] => None
  | c :: _ =>
      match hex_value c with
      | Some _ => Some (parseInt16_from 0 s)
      | None => None
      end
  end.

(** [arr.join('')] on an array of strings. *)
Definition join (arr : list jsstring) : jsstring := List.concat arr.

End JS.

Import JS.

(** ** Node.js buffers *)

Module Buffer.

Definition t := list byte.

(** [buf.length] *)
Definition len (buf : t) : N := N.of_nat (List.length buf).

Definition byte_hex (b : byte) : jsstring :=
  [hex_digit (Byte.to_N b / 16); hex_digit (Byte.to_N b mod 16)].

(** [buf.toString('hex')]: two lowercase digits per byte. *)
Definition toString_hex (buf : t) : jsstring := flat_map byte_hex buf.

Definition byte_of_nibbles (h l : N) : byte :=
  match Byte.of_N (16 * h + l) with
  | Some b => b
  | None => x00
  end.

(** The byte holding the low eight bits of a code unit. *)
Definition byte_of_nibbles_lo (c : code_unit) : byte :=
  byte_of_nibbles ((c / 16) mod 16) (c mod 16).

(** [Buffer.from(s, 'hex')]: decodes pairs of digits and stops at the first
    pair that is not two hexadecimal digits; a trailing single character is
    dropped. *)
Fixpoint from_hex (s : jsstring) : t :=
  match s with
  | c1 :: c2 :: rest =>
      match hex_value c1, hex_value c2 with
      | Some h, Some l => byte_of_nibbles h l :: from_hex rest
      | _, _ => []
      end
  | _ => []
  end.

(** [buf.slice(n)] (for a [Uint8Array], a copy; the bytes are the same). *)
Definition slice_from (n : nat) (buf : t) : t := skipn n buf.

End Buffer.

Definition bytes_of (s : string) : Buffer.t :=
  map byte_of_ascii (list_ascii_of_string s).

(** ** Regular expressions

    The fragment of ECMAScript regular expressions that the module-level
    constant [regex] uses: runs of literal characters and the lazy
    wildcard [.*?], matched by backtracking, and [RegExp.prototype.test]
    with the [lastIndex] protocol of [RegExpBuiltinExec]. *)

Module RegExp.

Inductive atom :=
| Chars (p : jsstring)   (* a run of literal characters *)
| AnyLazy.               (* .*? *)

Record t := mk {
  source : list atom;
  global : bool;
  sticky : bool;
  dotAll : bool;
  lastIndex : N
}.

Definition line_terminator (c : code_unit) : bool :=
  (c =? 10) || (c =? 13) || (c =? 8232) || (c =? 8233).

(** What [.] accepts: everything under the [s] flag, otherwise everything
    but a line terminator. *)
Definition dot (dotall : bool) (c : code_unit) : bool :=
  dotall || negb (line_terminator c).

(** Matches the literal run [p] at the head of [s]; the rest of the input. *)
Fixpoint starts_with (p s : jsstring) : option jsstring :=
  match p, s with
  | [], _ => Some s
  | a :: p', b :: s' => if a =? b then starts_with p' s' else None
  | _ :: _, [] => None
  end.

(** Backtracking matcher anchored at the head of the input. A lazy wildcard
    first tries the continuation and consumes one more character only when
    the continuation fails. The result is the input left after the match. *)
Fixpoint match_atoms (dotall : bool) (atoms : list atom)
  : jsstring -> option jsstring :=
  match atoms with
  | [] => fun s => Some s
  | Chars p :: rest => fun s =>
      match starts_with p s with
      | Some s' => match_atoms dotall rest s'
      | None => None
      end
  | AnyLazy :: rest =>
      fix lazy (s : jsstring) : option jsstring :=
        match match_atoms dotall rest s with
        | Some r => Some r
        | None =>
            match s with
            | [] => None
            | c :: s' => if dot dotall c then lazy s' else None
            end
        end
  end.

(** The search loop of [RegExpBuiltinExec], started at index [i] where the
    input left is [s]: the first index at which the pattern matches. A
    sticky expression tries the first index only. *)
Fixpoint search (R : t) (s : jsstring) (i : N) : option (N * jsstring) :=
  match match_atoms (dotAll R) (source R) s with
  | Some r => Some (i, r)
  | None =>
      if sticky R then None
      else match s with
           | [] => None
           | _ :: s' => search R s' (i + 1)
           end
  end.

Definition set_lastIndex (R : t) (i : N) : t :=
  mk (source R) (global R) (sticky R) (dotAll R) i.

(** [R.exec(S)]: the start and end index of the match, and the object
    afterwards. [lastIndex] is read and written only under [g] or [y]. *)
Definition exec (R : t) (S : jsstring) : option (N * N) * t :=
  let uses_lastIndex := global R || sticky R in
  let start := if uses_lastIndex then lastIndex R else 0 in
  let failed := (None, if uses_lastIndex then set_lastIndex R 0 else R) in
  if len S <? start then failed
  else match search R (skipn (N.to_nat start) S) start with
       | None => failed
       | Some (i, r) =>
           let e := len S - len r in
           (Some (i, e), if uses_lastIndex then set_lastIndex R e else R)
       end.

(** [R.test(S)] *)
Definition test (R : t) (S : jsstring) : bool * t :=
  match exec R S with
  | (Some _, R') => (true, R')
  | (None, R') => (false, R')
  end.

End RegExp.

(** ** Values, errors and completions *)

Inductive value :=
| Undefined
| Null
| Num (n : N)
| Str (s : jsstring).

Inductive error := Error (message : jsstring).

(** How a block of statements ends: with a value, or by throwing. *)
Inductive completion (A : Type) :=
| Normal (a : A)
| Throw (e : error).
Arguments Normal {A} a.
Arguments Throw {A} e.

(** [if (v)] for a value that is [null] or a string. *)
Definition truthy (v : option jsstring) : bool :=
  match v with
  | None => false
  | Some [] => false
  | Some (_ :: _) => true
  end.

(** ** The data model of [stringToHex] *)

(** An element of the [messages] array of the request body. Of the
    properties that the spread on line 21 copies, [content] is the one the
    schema knows. *)
Record raw_message := {
  raw_role : value;
  raw_content : value
}.

(** The same message after line 20: role as a number, fresh identifier. *)
Record formatted_message := {
  content : value;
  role : N;
  message_id : jsstring
}.

Record instructions_t := { instruction : jsstring }.
Record model_t := { name : value; empty : jsstring }.

(** The object literal of lines 27-40. *)
Record chat_message := {
  messages : list formatted_message;
  instructions : instructions_t;
  projectPath : jsstring;
  model : model_t;
  requestId : jsstring;
  summary : jsstring;
  conversationId : jsstring
}.

(** What [ResMessage.decode] returns; only [msg] is read. *)
Record ResMessage := { msg : jsstring }.

(** ** Collaborators outside src/ *)

(** The generated protobuf module [message.js] ([$root]). [verify] returns
    [null] ([None]) or a diagnostic string; [decode] returns a message or
    throws. *)
Class MessageJs := {
  ChatMessage : Type;
  ChatMessage_verify : chat_message -> option jsstring;
  ChatMessage_create : chat_message -> ChatMessage;
  ChatMessage_encode : ChatMessage -> Buffer.t;
  ResMessage_decode : Buffer.t -> completion ResMessage
}.

(** The Node.js runtime: [zlib.gunzip] hands its callback either an error
    ([None]) or the decompressed buffer; [toString_utf8] is
    [buf.toString('utf-8')]; [uuidv4] draws from a random source. *)
Class NodeJs := {
  zlib_gunzip : Buffer.t -> option Buffer.t;
  toString_utf8 : Buffer.t -> jsstring;
  rng : Type;
  uuidv4 : rng -> jsstring * rng
}.

(** ** The module utils.js *)

Definition inspect {A : Type} (a : A) : {b : A | a = b} := exist _ a eq_refl.

Section Codec.

Context {message_js : MessageJs} {node : NodeJs}.

(** Calls worth observing, recorded in program order. *)
Inductive event :=
| CallGunzip (chunk : Buffer.t)
| CallEncode (m : ChatMessage).

(** The state a call can reach besides its arguments: the [lastIndex] of the
    module-level [regex] object, the random source behind [uuidv4], and the
    record of observed calls. *)
Record state := mkState {
  regex_lastIndex : N;
  random : rng;
  trace : list event
}.

Definition M (A : Type) : Type := state -> A * state.

Definition ret {A : Type} (a : A) : M A := fun st => (a, st).

Definition bind {A B : Type} (m : M A) (k : A -> M B) : M B :=
  fun st => let (a, st') := m st in k a st'.

Definition emit (e : event) : M unit :=
  fun st => (tt, mkState (regex_lastIndex st) (random st) (trace st ++ [e])).

Definition fresh_uuid : M jsstring :=
  fun st => let (id, r) := uuidv4 (random st) in
            (id, mkState (regex_lastIndex st) r (trace st)).

Fixpoint mapM {A B : Type} (f : A -> M B) (l : list A) : M (list B) :=
  match l with
  | [] => ret []
  | a :: l' => bind (f a) (fun b => bind (mapM f l') (fun bs => ret (b :: bs)))
  end.

(** Line 10: [/<\|BEGIN_SYSTEM\|>.*?<\|END_SYSTEM\|>.*?<\|BEGIN_USER\|>.*?<\|END_USER\|>/s] *)
Definition regex_source : list RegExp.atom :=
  [ RegExp.Chars (lit "<|BEGIN_SYSTEM|>"); RegExp.AnyLazy;
    RegExp.Chars (lit "<|END_SYSTEM|>"); RegExp.AnyLazy;
    RegExp.Chars (lit "<|BEGIN_USER|>"); RegExp.AnyLazy;
    RegExp.Chars (lit "<|END_USER|>") ].

(** The [regex] object when its [lastIndex] is [i]; the flags are those of
    the literal ([s] only) and cannot change. *)
Definition regex (i : N) : RegExp.t :=
  RegExp.mk regex_source false false true i.

(** [regex.test(text)] on the module-level object. *)
Definition regex_test (text : jsstring) : M bool :=
  fun st =>
    let (found, R) := RegExp.test (regex (regex_lastIndex st)) text in
    (found, mkState (RegExp.lastIndex R) (random st) (trace st)).

(** *** Lines 18-59: [stringToHex] *)

(** Line 22: [msg.role === 'user' ? 1 : 2] *)
Definition role_number (r : value) : N :=
  match r with
  | Str s => if list_eq_dec N.eq_dec s (lit "user") then 1 else 2
  | _ => 2
  end.

(** Lines 20-24, one element of [messages.map]. *)
Definition format_message (m : raw_message) : M formatted_message :=
  bind fresh_uuid (fun id =>
  ret {| content := raw_content m; role := role_number (raw_role m);
         message_id := id |}).

(** Line 55 *)
Definition hexString (buffer : Buffer.t) : jsstring :=
  toUpperCase (padStart0 10 (toString16 (Buffer.len buffer))
               ++ Buffer.toString_hex buffer).

(** Lines 55-58: the frame built around the encoded message. *)
Definition frame_encode (buffer : Buffer.t) : Buffer.t :=
  Buffer.from_hex (hexString buffer).

(** Lines 20-40: the object handed to the schema, identifiers drawn in
    evaluation order. *)
Definition build_message (msgs : list raw_message) (modelName : value)
  : M chat_message :=
  bind (mapM format_message msgs) (fun formattedMessages =>
  bind fresh_uuid (fun request_id =>
  bind fresh_uuid (fun conversation_id =>
  ret {| messages := formattedMessages;
         instructions :=
           {| instruction := lit "Always respond in " ++ [20013; 25991] |};
         projectPath := lit "/path/to/project";
         model := {| name := modelName; empty := [] |};
         requestId := request_id;
         summary := [];
         conversationId := conversation_id |}))).

Definition stringToHex (msgs : list raw_message) (modelName : value)
  : M (completion Buffer.t) :=
  bind (build_message msgs modelName) (fun message =>
  let errMsg := ChatMessage_verify message in
  if truthy errMsg then
    ret (Throw (Error (match errMsg with Some s => s | None => [] end)))
  else
    let messageInstance := ChatMessage_create message in
    bind (emit (CallEncode messageInstance)) (fun _ =>
    let buffer := ChatMessage_encode messageInstance in
    ret (Normal (frame_encode buffer)))).

(** *** Lines 113-132: [gunzip] *)

Definition gunzip (chunk : Buffer.t) : M jsstring :=
  bind (emit (CallGunzip chunk)) (fun _ =>
  match zlib_gunzip (Buffer.slice_from 5 chunk) with
  | None => ret []
  | Some decompressed =>
      let text := toString_utf8 decompressed in
      bind (regex_test text) (fun found =>
      if found then ret [] else ret text)
  end).

(** *** Lines 66-106: [chunkToUtf8String] *)

(** The [while] loop of lines 75-94, entered with the given [offset] and
    [results]. It ends normally with the final [results], or with what
    [ResMessage.decode] threw. When [parseInt] yields [NaN] the bound check
    of line 84 is false, the slice of line 87 is empty, one more message is
    decoded from the empty buffer and [offset] becomes [NaN], which ends
    the loop. *)
Equations? parse_frames (hex : jsstring) (offset : N) (results : list jsstring)
  : completion (list jsstring) by wf (N.to_nat (len hex - offset)) lt :=
parse_frames hex offset results with inspect (offset <? len hex) := {
  | exist _ false _ => Normal results;
  | exist _ true Hin with inspect (len hex <? offset + 10) := {
    | exist _ true _ => Normal results;
    | exist _ false _ with parseInt16 (slice hex offset (offset + 10)) := {
      | None with ResMessage_decode (Buffer.from_hex []) := {
        | Throw e => Throw e;
        | Normal message => Normal (results ++ [msg message]) };
      | Some dataLength
        with inspect (len hex <? offset + 10 + dataLength * 2) := {
        | exist _ true _ => Normal results;
        | exist _ false _
          with ResMessage_decode
                 (Buffer.from_hex
                    (slice hex (offset + 10) (offset + 10 + dataLength * 2))) := {
          | Throw e => Throw e;
          | Normal message =>
              parse_frames hex (offset + 10 + dataLength * 2)
                           (results ++ [msg message]) } } } } }.
Proof.
  apply N.ltb_lt in Hin. lia.
Qed.

(** The body of the [try] block down to line 94. *)
Definition parse (chunk : Buffer.t) : completion (list jsstring) :=
  let hex := Buffer.toString_hex chunk in
  parse_frames hex 0 [].

Definition chunkToUtf8String (chunk : Buffer.t) : M jsstring :=
  match parse chunk with
  | Normal results =>
      if N.of_nat (List.length results) =? 0 then gunzip chunk
      else ret (join results)
  | Throw err => gunzip chunk
  end.

End Codec.

(** ** Reference definitions, in the words of the specification *)

Module Spec.

(** An uppercase hexadecimal digit. *)
Definition upper_hex_digit (d : N) : code_unit :=
  if d <? 10 then 48 + d else 55 + d.

(** The byte length as exactly ten uppercase hexadecimal characters,
    most significant first, zeros on the left. *)
Definition length_prefix (n : N) : jsstring :=
  map (fun i => upper_hex_digit (n / 16 ^ i mod 16)) [9; 8; 7; 6; 5; 4; 3; 2; 1; 0].

(** The payload's bytes as uppercase hexadecimal text. *)
Definition payload_hex (p : Buffer.t) : jsstring :=
  flat_map (fun b => [upper_hex_digit (Byte.to_N b / 16);
                      upper_hex_digit (Byte.to_N b mod 16)]) p.

(** The five bytes that the ten characters of the prefix denote. *)
Definition length_bytes (n : N) : Buffer.t :=
  map (fun i => Buffer.byte_of_nibbles (n / 16 ^ (2 * i + 1) mod 16)
                                       (n / 16 ^ (2 * i) mod 16))
      [4; 3; 2; 1; 0].

(** A complete frame: the prefix, then exactly that many payload bytes. *)
Definition frame (payload : Buffer.t) : Buffer.t :=
  length_bytes (Buffer.len payload) ++ payload.

(** The text contains a complete system block followed by a complete user
    block. *)
Definition contains_block (text : jsstring) : Prop :=
  exists a x y z d,
    text = a ++ lit "<|BEGIN_SYSTEM|>" ++ x ++ lit "<|END_SYSTEM|>" ++ y
             ++ lit "<|BEGIN_USER|>" ++ z ++ lit "<|END_USER|>" ++ d.

End Spec.

(** [k] hexadecimal digits of [n], least significant last. *)
Fixpoint fixed_hex (k : nat) (n : N) : jsstring :=
  match k with
  | O => []
  | S k' => fixed_hex k' (n / 16) ++ [hex_digit (n mod 16)]
  end.

(** What a sequence of atoms matches, declaratively: [matches d atoms s r]
    when a prefix of [s] belongs to the pattern and [r] is what follows. *)
Inductive matches (dotall : bool) : list RegExp.atom -> jsstring -> jsstring -> Prop :=
| matches_nil s : matches dotall [] s s
| matches_chars p rest s r :
    matches dotall rest s r ->
    matches dotall (RegExp.Chars p :: rest) (p ++ s) r
| matches_any x rest s r :
    Forall (fun c => RegExp.dot dotall c = true) x ->
    matches dotall rest s r ->
    matches dotall (RegExp.AnyLazy :: rest) (x ++ s) r.

(** ** Vocabulary of the statements *)

Section Vocabulary.

Context {message_js : MessageJs} {node : NodeJs}.

(** The state after a call that made the given observable calls and
    nothing else. *)
Definition after (st : state) (es : list event) : state :=
  mkState (regex_lastIndex st) (random st) (trace st ++ es).

(** What [gunzip] resolves to, in terms of what [zlib] is given. *)
Definition gunzip_text (chunk : Buffer.t) : jsstring :=
  match zlib_gunzip (Buffer.slice_from 5 chunk) with
  | None => []
  | Some decompressed =>
      let text := toString_utf8 decompressed in
      if fst (RegExp.test (regex 0) text) then [] else text
  end.

(** The payload decodes without error, to a message whose text is [text]. *)
Definition decodes_to (payload : Buffer.t) (text : jsstring) : Prop :=
  exists m, ResMessage_decode payload = Normal m /\ msg m = text.

(** The bytes of a sequence of complete frames. *)
Definition frames (payloads : list Buffer.t) : Buffer.t :=
  List.concat (map Spec.frame payloads).

(** All payloads fit the ten-digit length field. *)
Definition fit (payloads : list Buffer.t) : Prop :=
  Forall (fun p => Buffer.len p < 16 ^ 10) payloads.

(** An empty input never decompresses to a non-empty text (an empty buffer
    is not a gzip stream at all). *)
Definition gunzip_of_nothing_is_empty : Prop :=
  forall d, zlib_gunzip [] = Some d -> toString_utf8 d = [].

End Vocabulary.

(** ** A small concrete runtime

    Instances of the collaborators on which the definitions above can be
    run: a decoder for the one-field message [0A len bytes], a validator
    that wants string contents, a stand-in decompressor that accepts the
    gzip magic number and returns what follows, and a counter for [uuidv4]. *)

Module Sample.

Definition ascii_text (buf : Buffer.t) : jsstring := map Byte.to_N buf.

Definition decode (buf : Buffer.t) : completion ResMessage :=
  match buf with
  | [] => Normal {| msg := [] |}
  | tag :: n :: body =>
      if (Byte.to_N tag =? 10) && (Byte.to_N n =? N.of_nat (List.length body))
      then Normal {| msg := ascii_text body |}
      else Throw (Error (lit "invalid wire type"))
  | _ => Throw (Error (lit "index out of range"))
  end.

Definition verify (m : chat_message) : option jsstring :=
  if forallb (fun fm => match content fm with Str _ => true | _ => false end)
             (messages m)
  then None
  else Some (lit "messages.content: string expected").

Definition encode (m : chat_message) : Buffer.t :=
  flat_map (fun fm => match content fm with
                      | Str s => map Buffer.byte_of_nibbles_lo s
                      | _ => []
                      end) (messages m).

#[export] Instance message_js : MessageJs := {|
  ChatMessage := chat_message;
  ChatMessage_verify := verify;
  ChatMessage_create := fun m => m;
  ChatMessage_encode := encode;
  ResMessage_decode := decode
|}.

Definition gunzip_magic (buf : Buffer.t) : option Buffer.t :=
  match buf with
  | x1f :: x8b :: body => Some body
  | _ => None
  end.

#[export] Instance node : NodeJs := {|
  zlib_gunzip := gunzip_magic;
  toString_utf8 := ascii_text;
  rng := N;
  uuidv4 := fun n => (lit "uuid-" ++ toString16 n, n + 1)
|}.

Definition st0 : state := mkState 0 (0 : N) [].

(** Payloads, texts and requests to run the codec on. *)
Definition hi : Buffer.t := [x0a; x02; x68; x69].
Definition bang : Buffer.t := [x0a; x01; x21].
Definition sentinel : string :=
  "<|BEGIN_SYSTEM|>x<|END_SYSTEM|>y<|BEGIN_USER|>z<|END_USER|>".

Definition bad_request : list raw_message :=
  [ {| raw_role := Str (lit "user"); raw_content := Null |} ].

End Sample.

(** ** Vocabulary of further statements *)

Section MoreVocabulary.

Context {message_js : MessageJs} {node : NodeJs}.

(** Bytes that do not begin with a complete frame: too few for a length
    prefix, or a prefix that announces more payload than follows. *)
Definition incomplete (tail : Buffer.t) : Prop :=
  Buffer.len tail < 5
  \/ exists n partial,
       n < 16 ^ 10
       /\ tail = Spec.length_bytes n ++ partial
       /\ Buffer.len partial < n.

(** The next [k] identifiers of the random source, and the source after
    them. *)
Fixpoint draws (k : nat) (r : rng) : list jsstring * rng :=
  match k with
  | O => ([], r)
  | S k' =>
      let (id, r') := uuidv4 r in
      let (ids, r'') := draws k' r' in
      (id :: ids, r'')
  end.

End MoreVocabulary.

(** [p] occurs in [s] as a substring. *)
Definition occurs (p s : jsstring) : Prop := exists a b, s = a ++ p ++ b.

(** A lowercase hexadecimal digit character. *)
Definition lower_hex (c : code_unit) : Prop := exists d, d < 16 /\ c = hex_digit d.

(** ** More of the string library *)

Module StringOps.

(** White space and line terminators, the characters [trim] removes. *)
Definition is_space (c : code_unit) : bool :=
  (c =? 9) || (c =? 10) || (c =? 11) || (c =? 12) || (c =? 13) || (c =? 32)
  || (c =? 160) || (c =? 5760) || ((8192 <=? c) && (c <=? 8202))
  || (c =? 8232) || (c =? 8233) || (c =? 8239) || (c =? 8287)
  || (c =? 12288) || (c =? 65279).

Fixpoint trimStart (s : jsstring) : jsstring :=
  match s with
  | [] => []
  | c :: s' => if is_space c then trimStart s' else s
  end.

Definition trimEnd (s : jsstring) : jsstring := rev (trimStart (rev s)).

(** [s.trim()] *)
Definition trim (s : jsstring) : jsstring := trimEnd (trimStart s).

(** [s.replace(p, r)] for a string pattern and a replacement without [$]:
    the first occurrence of [p] is replaced. *)
Fixpoint replace_first (p r s : jsstring) : jsstring :=
  match RegExp.starts_with p s with
  | Some rest => r ++ rest
  | None =>
      match s with
      | [] => []
      | c :: s' => c :: replace_first p r s'
      end
  end.

(** [s.includes(p)] *)
Fixpoint includes (p s : jsstring) : bool :=
  match RegExp.starts_with p s with
  | Some _ => true
  | None =>
      match s with
      | [] => false
      | _ :: s' => includes p s'
      end
  end.

(** [s.split(sep)] for a non-empty separator. [cur] is the piece being
    read and [skip] the number of characters of a separator just found
    that are still to be passed over. *)
Fixpoint split_from (sep s cur : jsstring) (skip : nat) : list jsstring :=
  match s with
  | [] => [cur]
  | c :: s' =>
      match skip with
      | S k => split_from sep s' cur k
      | O =>
          match RegExp.starts_with sep s with
          | Some _ => cur :: split_from sep s' [] (List.length sep - 1)
          | None => split_from sep s' (cur ++ [c]) 0
          end
      end
  end.

Definition split (sep s : jsstring) : list jsstring := split_from sep s [] 0.

(** [s[i]] appended to a string: the character, or the text of
    [undefined] beyond the end. *)
Definition char_at (s : jsstring) (i : N) : jsstring :=
  match nth_error s (N.to_nat i) with
  | Some c => [c]
  | None => lit "undefined"
  end.

End StringOps.

(** ** Regular expressions with anchors and greedy quantifiers

    The fragment used by the two expressions of index.js, lines 135-136:
    the anchor [^] (no [m] flag: start of input only), runs of literal
    characters, the greedy wildcard [.*] and an optional character of a
    class given by ranges, as in [[a-zA-Z]?]. *)

Module Rx.

Inductive atom :=
| Bol                              (* ^ *)
| Chars (p : jsstring)             (* literal characters *)
| AnyGreedy                        (* .* *)
| OptRanges (rs : list (N * N)).   (* [..]? *)

Definition in_ranges (rs : list (N * N)) (c : code_unit) : bool :=
  existsb (fun r => (fst r <=? c) && (c <=? snd r)) rs.

(** Backtracking matcher at index [i] of the input, where [s] is what is
    left. Greedy quantifiers try the longest option first. *)
Fixpoint match_atoms (dotall : bool) (atoms : list atom)
  : N -> jsstring -> option jsstring :=
  match atoms with
  | [] => fun _ s => Some s
  | Bol :: rest => fun i s =>
      if i =? 0 then match_atoms dotall rest i s else None
  | Chars p :: rest => fun i s =>
      match RegExp.starts_with p s with
      | Some s' => match_atoms dotall rest (i + len p) s'
      | None => None
      end
  | AnyGreedy :: rest =>
      fix greedy (i : N) (s : jsstring) {struct s} : option jsstring :=
        match s with
        | c :: s' =>
            if RegExp.dot dotall c then
              match greedy (i + 1) s' with
              | Some r => Some r
              | None => match_atoms dotall rest i s
              end
            else match_atoms dotall rest i s
        | [] => match_atoms dotall rest i s
        end
  | OptRanges rs :: rest => fun i s =>
      match s with
      | c :: s' =>
          if in_ranges rs c then
            match match_atoms dotall rest (i + 1) s' with
            | Some r => Some r
            | None => match_atoms dotall rest i s
            end
          else match_atoms dotall rest i s
      | [] => match_atoms dotall rest i s
      end
  end.

(** The first index from [i] on at which the expression matches. *)
Fixpoint search (dotall : bool) (atoms : list atom) (s : jsstring) (i : N)
  : option (N * jsstring) :=
  match match_atoms dotall atoms i s with
  | Some r => Some (i, r)
  | None =>
      match s with
      | [] => None
      | _ :: s' => search dotall atoms s' (i + 1)
      end
  end.

(** [S.replace(R, '')] for an expression without [g] and [y]: the first
    match is cut out. *)
Definition replace_empty (dotall : bool) (atoms : list atom) (S : jsstring)
  : jsstring :=
  match search dotall atoms S 0 with
  | Some (i, r) => firstn (N.to_nat i) S ++ r
  | None => S
  end.

End Rx.

(** ** [getRandomIDPro] (utils.js, lines 142-163) *)

(** [(Math.random() * n) | 0] for a string length [n > 0]: [Math.random()]
    is a floating-point number in [0, 1), its product with [n] lies in
    [0, n) and [| 0] cuts off the fraction. Which integer comes out is up to
    the generator. *)
Class MathJs := {
  math_source : Type;
  Math_random_times : N -> math_source -> N * math_source;
  Math_random_times_lt :
    forall n r, 0 < n -> fst (Math_random_times n r) < n
}.

(** The argument object; [size] is a natural number, as at the call sites. *)
Record id_options := {
  size : nat;
  dictType : value;
  customDict : option jsstring
}.

Definition dict_alphabet : jsstring :=
  lit "abcdefghijklmnopqrstuvwxyzABCDEFGHIJKLMNOPQRSTUVWXYZ".
Definition dict_max : jsstring :=
  lit "0123456789abcdefghijklmnopqrstuvwxyzABCDEFGHIJKLMNOPQRSTUVWXYZ_-".
Definition dict_digits : jsstring := lit "0123456789".

(** Lines 145-159: the character set in effect. *)
Definition dictionary (o : id_options) : jsstring :=
  if truthy (customDict o) then
    match customDict o with Some d => d | None => [] end
  else
    match dictType o with
    | Str t =>
        if list_eq_dec N.eq_dec t (lit "alphabet") then dict_alphabet
        else if list_eq_dec N.eq_dec t (lit "max") then dict_max
        else dict_digits
    | _ => dict_digits
    end.

Section RandomId.

Context {math : MathJs}.

(** Line 161: the loop [for (; size--; ) random += customDict[..]]. *)
Fixpoint random_chars (n : nat) (dict random : jsstring) (r : math_source)
  : jsstring * math_source :=
  match n with
  | O => (random, r)
  | S n' =>
      let (i, r') := Math_random_times (len dict) r in
      random_chars n' dict (random ++ StringOps.char_at dict i) r'
  end.

Definition getRandomIDPro (o : id_options) (r : math_source)
  : jsstring * math_source :=
  random_chars (size o) (dictionary o) [] r.

(** ** Fragments of the request handler (index.js) *)

(** Lines 61-64: the checksum header sent upstream. [??] passes on only
    when its left operand is [undefined]. *)
Definition checksum (header env : option jsstring) (r : math_source)
  : jsstring * math_source :=
  match header with
  | Some h => (h, r)
  | None =>
      match env with
      | Some e => (e, r)
      | None =>
          let max n := {| size := n; dictType := Str (lit "max");
                          customDict := None |} in
          let (a, r1) := getRandomIDPro (max 6%nat) r in
          let (b, r2) := getRandomIDPro (max 64%nat) r1 in
          let (c, r3) := getRandomIDPro (max 64%nat) r2 in
          (lit "zo" ++ a ++ b ++ lit "/" ++ c, r3)
      end
  end.

End RandomId.

(** What evaluating lines 32-48 gives: the token, or the [TypeError] of
    calling [split] on [undefined]. *)
Inductive token_result :=
| Token (authToken : jsstring)
| TypeError (message : jsstring).

(** Lines 32-48, with [currentKeyIndex] at the 0 that line 26 gives it on
    every request. *)
Definition auth_token (authorization : option jsstring) : token_result :=
  match authorization with
  | None =>
      TypeError (lit "Cannot read properties of undefined (reading 'split')")
  | Some header =>
      let authToken := StringOps.replace_first (lit "Bearer ") [] header in
      let keys := map StringOps.trim (StringOps.split (lit ",") authToken) in
      let authToken := match keys with
                       | [] => authToken
                       | key :: _ => key
                       end in
      if truthy (Some authToken) && StringOps.includes (lit "%3A%3A") authToken
      then Token (nth 1 (StringOps.split (lit "%3A%3A") authToken) [])
      else Token authToken
  end.

(** Line 135: [/^.*<\|END_USER\|>/s] *)
Definition up_to_end_user : list Rx.atom :=
  [Rx.Bol; Rx.AnyGreedy; Rx.Chars (lit "<|END_USER|>")].

(** Line 136: [/^\n[a-zA-Z]?/] *)
Definition newline_letter : list Rx.atom :=
  [Rx.Bol; Rx.Chars [10]; Rx.OptRanges [(97, 122); (65, 90)]].

(** The class [[a-zA-Z]]. *)
Definition is_letter (c : code_unit) : bool :=
  Rx.in_ranges [(97, 122); (65, 90)] c.

(** Lines 135-136: the clean-up of the collected text. *)
Definition clean_text (text : jsstring) : jsstring :=
  let text := Rx.replace_empty true up_to_end_user text in
  StringOps.trim (Rx.replace_empty false newline_letter text).

Section Responses.

Context {message_js : MessageJs} {node : NodeJs}.

(** Lines 128-132: the text of all chunks, one after the other. *)
Fixpoint collect_text (chunks : list Buffer.t) (text : jsstring) : M jsstring :=
  match chunks with
  | [] => ret text
  | chunk :: chunks' =>
      bind (chunkToUtf8String chunk) (fun t => collect_text chunks' (text ++ t))
  end.

(** Lines 128-136: the content of the non-streaming answer. *)
Definition completion_content (chunks : list Buffer.t) : M jsstring :=
  bind (collect_text chunks []) (fun text => ret (clean_text text)).

(** Lines 98-120: the [delta.content] of the events written in streaming
    mode, in the order of writing; [written] holds those written so far. *)
Fixpoint stream_deltas (chunks : list Buffer.t) (written : list jsstring)
  : M (list jsstring) :=
  match chunks with
  | [] => ret written
  | chunk :: chunks' =>
      bind (chunkToUtf8String chunk) (fun text =>
      stream_deltas chunks' (if 0 <? len text then written ++ [text]
                             else written))
  end.

End Responses.

(** A request of two messages. *)
Definition good_request : list raw_message :=
  [ {| raw_role := Str (lit "user"); raw_content := Str (lit "hi") |};
    {| raw_role := Str (lit "system"); raw_content := Str (lit "yo") |} ].

(** A generator to run [getRandomIDPro] on: the indices go round. *)
Module SampleMath.

#[export] Instance math : MathJs := {|
  math_source := N;
  Math_random_times := fun n r => (r mod n, r + 7);
  Math_random_times_lt := fun n r H =>
    N.mod_lt r n (proj2 (N.neq_0_lt_0 n) H)
|}.

End SampleMath.

(** ** Hexadecimal text *)

Ltac cases_cmp :=
  repeat match goal with
    | |- context [?a <=? ?b] => destruct (N.leb_spec a b)
    | |- context [?a <? ?b] => destruct (N.ltb_spec a b)
    | |- context [?a =? ?b] => destruct (N.eqb_spec a b)
    end;
  cbn [andb orb negb]; try lia; try (f_equal; lia).

Lemma hex_value_hex_digit (d : N) : d < 16 -> hex_value (hex_digit d) = Some d.
Proof. intros Hd. unfold hex_value, hex_digit. cases_cmp. Qed.

Lemma upper_hex_digit_eq (d : N) :
  d < 16 -> upper_unit (hex_digit d) = Spec.upper_hex_digit d.
Proof. intros Hd. unfold upper_unit, hex_digit, Spec.upper_hex_digit. cases_cmp. Qed.

Lemma hex_value_upper_hex_digit (d : N) :
  d < 16 -> hex_value (Spec.upper_hex_digit d) = Some d.
Proof. intros Hd. unfold hex_value, Spec.upper_hex_digit. cases_cmp. Qed.

Lemma byte_nibbles (b : byte) :
  Byte.to_N b / 16 < 16 /\ Byte.to_N b mod 16 < 16.
Proof.
  pose proof (Byte.to_N_bounded b) as Hb. split.
  - apply N.Div0.div_lt_upper_bound. lia.
  - apply N.mod_lt. lia.
Qed.

Lemma byte_of_nibbles_to_N (b : byte) :
  Buffer.byte_of_nibbles (Byte.to_N b / 16) (Byte.to_N b mod 16) = b.
Proof.
  unfold Buffer.byte_of_nibbles.
  rewrite <- N.div_mod by lia. now rewrite Byte.of_to_N.
Qed.

Lemma toString_hex_app (a b : Buffer.t) :
  Buffer.toString_hex (a ++ b) = Buffer.toString_hex a ++ Buffer.toString_hex b.
Proof. apply flat_map_app. Qed.

Lemma toString_hex_length (buf : Buffer.t) :
  len (Buffer.toString_hex buf) = 2 * Buffer.len buf.
Proof.
  unfold len, Buffer.len.
  induction buf as [|b buf IH]; [reflexivity|].
  cbn [Buffer.toString_hex flat_map Buffer.byte_hex app List.length].
  fold (Buffer.toString_hex buf). lia.
Qed.

(** Decoding resumes after the two digits of a byte. *)
Lemma from_hex_byte_hex (b : byte) (s : jsstring) :
  Buffer.from_hex (Buffer.byte_hex b ++ s) = b :: Buffer.from_hex s.
Proof.
  destruct (byte_nibbles b) as [Hh Hl].
  cbn [Buffer.byte_hex app Buffer.from_hex].
  rewrite !hex_value_hex_digit by assumption.
  now rewrite byte_of_nibbles_to_N.
Qed.

Lemma from_hex_toString_hex_app (buf : Buffer.t) (s : jsstring) :
  Buffer.from_hex (Buffer.toString_hex buf ++ s) = buf ++ Buffer.from_hex s.
Proof.
  induction buf as [|b buf IH]; [reflexivity|].
  cbn [Buffer.toString_hex flat_map]. fold (Buffer.toString_hex buf).
  rewrite <- app_assoc, from_hex_byte_hex, IH. reflexivity.
Qed.

(** [Buffer.from(buf.toString('hex'), 'hex')] gives the bytes back. *)
Lemma from_hex_toString_hex (buf : Buffer.t) :
  Buffer.from_hex (Buffer.toString_hex buf) = buf.
Proof.
  rewrite <- (app_nil_r (Buffer.toString_hex buf)), from_hex_toString_hex_app.
  apply app_nil_r.
Qed.

Lemma toUpperCase_toString_hex (buf : Buffer.t) :
  toUpperCase (Buffer.toString_hex buf) = Spec.payload_hex buf.
Proof.
  induction buf as [|b buf IH]; [reflexivity|].
  destruct (byte_nibbles b) as [Hh Hl].
  cbn [Buffer.toString_hex flat_map Spec.payload_hex Buffer.byte_hex app
       toUpperCase map].
  rewrite !upper_hex_digit_eq by assumption.
  do 2 f_equal. exact IH.
Qed.

Lemma from_hex_payload_hex_app (buf : Buffer.t) (s : jsstring) :
  Buffer.from_hex (Spec.payload_hex buf ++ s) = buf ++ Buffer.from_hex s.
Proof.
  induction buf as [|b buf IH]; [reflexivity|].
  destruct (byte_nibbles b) as [Hh Hl].
  cbn [Spec.payload_hex flat_map app Buffer.from_hex].
  rewrite !hex_value_upper_hex_digit by assumption.
  rewrite byte_of_nibbles_to_N. fold (Spec.payload_hex buf).
  now rewrite IH.
Qed.

(** ** The length prefix *)

Lemma toString16_digits_acc (fuel : nat) (n : N) (acc : jsstring) :
  toString16_digits fuel n acc = toString16_digits fuel n [] ++ acc.
Proof.
  revert n acc. induction fuel as [|fuel IH]; intros n acc; [reflexivity|].
  cbn [toString16_digits]. destruct (n =? 0); [reflexivity|].
  rewrite IH, (IH _ [_]), <- app_assoc. reflexivity.
Qed.

Lemma fixed_hex_zero (k : nat) : fixed_hex k 0 = repeat 48 k.
Proof.
  induction k as [|k IH]; [reflexivity|].
  cbn [fixed_hex]. change (0 / 16) with 0. rewrite IH.
  change (hex_digit (0 mod 16)) with 48.
  symmetry. apply repeat_cons.
Qed.

Lemma fixed_hex_length (k : nat) (n : N) : List.length (fixed_hex k n) = k.
Proof.
  revert n. induction k as [|k IH]; intros n; [reflexivity|].
  cbn [fixed_hex]. rewrite length_app, IH. cbn. lia.
Qed.

(** With enough fuel the digits of [toString(16)] are the fixed-width
    digits without their leading zeros. *)
Lemma fixed_hex_digits (fuel : nat) :
  forall (n : N) (k : nat),
    n < 2 ^ N.of_nat fuel -> n < 16 ^ N.of_nat k ->
    (List.length (toString16_digits fuel n []) <= k)%nat
    /\ fixed_hex k n =
       repeat 48 (k - List.length (toString16_digits fuel n []))
       ++ toString16_digits fuel n [].
Proof.
  induction fuel as [|fuel IH]; intros n k Hf Hk.
  - assert (n = 0) by (cbn in Hf; lia). subst n.
    cbn [toString16_digits List.length]. split; [lia|].
    rewrite fixed_hex_zero, app_nil_r, Nat.sub_0_r. reflexivity.
  - cbn [toString16_digits]. destruct (N.eqb_spec n 0) as [->|Hn].
    + cbn [List.length]. split; [lia|].
      rewrite fixed_hex_zero, app_nil_r, Nat.sub_0_r. reflexivity.
    + destruct k as [|k]; [cbn in Hk; lia|].
      rewrite Nat2N.inj_succ, N.pow_succ_r' in Hf, Hk.
      assert (Hf' : n / 16 < 2 ^ N.of_nat fuel).
      { apply N.Div0.div_lt_upper_bound. lia. }
      assert (Hk' : n / 16 < 16 ^ N.of_nat k).
      { apply N.Div0.div_lt_upper_bound. lia. }
      destruct (IH (n / 16) k Hf' Hk') as [Hlen Heq].
      rewrite toString16_digits_acc, length_app. cbn [List.length].
      split; [lia|].
      cbn [fixed_hex]. rewrite Heq, <- app_assoc.
      replace (S k - (List.length (toString16_digits fuel (n / 16) []) + 1))%nat
        with (k - List.length (toString16_digits fuel (n / 16) []))%nat by lia.
      reflexivity.
Qed.

(** [n.toString(16).padStart(10, '0')] is the ten-digit rendering as long as
    [n] fits in ten digits. *)
Lemma padStart_toString16 (n : N) :
  n < 16 ^ 10 -> padStart0 10 (toString16 n) = fixed_hex 10 n.
Proof.
  intros Hn. unfold toString16. destruct (N.eqb_spec n 0) as [->|Hz].
  - reflexivity.
  - assert (Hf : n < 2 ^ N.of_nat (N.to_nat (N.size n))).
    { rewrite N2Nat.id. apply N.size_gt. }
    destruct (fixed_hex_digits _ n 10 Hf Hn) as [Hlen Heq].
    rewrite Heq. unfold padStart0, len. f_equal. f_equal. lia.
Qed.

Lemma fixed_hex_positional (k : nat) (n : N) :
  fixed_hex k n =
  map (fun i => hex_digit (n / 16 ^ N.of_nat i mod 16)) (rev (seq 0 k)).
Proof.
  revert n. induction k as [|k IH]; intros n; [reflexivity|].
  cbn [fixed_hex]. rewrite IH.
  rewrite <- cons_seq, <- seq_shift. cbn [rev]. rewrite map_app.
  cbn [map]. rewrite N.pow_0_r, N.div_1_r. f_equal.
  rewrite <- map_rev, map_map. apply map_ext. intros i.
  rewrite Nat2N.inj_succ, N.pow_succ_r', N.Div0.div_div. reflexivity.
Qed.

Lemma toUpperCase_fixed_hex (n : N) :
  toUpperCase (fixed_hex 10 n) = Spec.length_prefix n.
Proof.
  rewrite fixed_hex_positional. unfold toUpperCase, Spec.length_prefix.
  cbn [seq rev app map].
  rewrite !upper_hex_digit_eq by (apply N.mod_lt; lia).
  reflexivity.
Qed.

Lemma from_hex_length_prefix_app (n : N) (s : jsstring) :
  Buffer.from_hex (Spec.length_prefix n ++ s) =
  Spec.length_bytes n ++ Buffer.from_hex s.
Proof.
  unfold Spec.length_prefix, Spec.length_bytes.
  cbn [map app Buffer.from_hex].
  rewrite !hex_value_upper_hex_digit by (apply N.mod_lt; lia).
  reflexivity.
Qed.

Lemma hexString_spec (p : Buffer.t) :
  Buffer.len p < 16 ^ 10 ->
  hexString p = Spec.length_prefix (Buffer.len p) ++ Spec.payload_hex p.
Proof.
  intros Hp. unfold hexString, toUpperCase. rewrite map_app.
  fold (toUpperCase (Buffer.toString_hex p)).
  rewrite padStart_toString16 by assumption.
  fold (toUpperCase (fixed_hex 10 (Buffer.len p))).
  now rewrite toUpperCase_fixed_hex, toUpperCase_toString_hex.
Qed.

(** The bytes on the wire: five bytes of length, then the payload itself. *)
Lemma frame_encode_frame (p : Buffer.t) :
  Buffer.len p < 16 ^ 10 -> frame_encode p = Spec.frame p.
Proof.
  intros Hp. unfold frame_encode, Spec.frame.
  rewrite hexString_spec by assumption.
  rewrite from_hex_length_prefix_app.
  rewrite <- (app_nil_r (Spec.payload_hex p)), from_hex_payload_hex_app.
  cbn [Buffer.from_hex]. now rewrite app_nil_r.
Qed.

(** C1. For a payload [p] shorter than 16^10 bytes, the text built on
    line 55 is the ten-character, zero-padded, uppercase hexadecimal
    rendering of [p]'s length followed by the uppercase hexadecimal
    rendering of [p]'s bytes, and the frame returned on line 58 is that text
    read back as hexadecimal. *)
Theorem frame_encode_spec (p : Buffer.t) :
  Buffer.len p < 16 ^ 10 ->
  hexString p = Spec.length_prefix (Buffer.len p) ++ Spec.payload_hex p
  /\ frame_encode p =
     Buffer.from_hex (Spec.length_prefix (Buffer.len p) ++ Spec.payload_hex p).
Proof.
  intros Hp. split.
  - now apply hexString_spec.
  - unfold frame_encode. now rewrite hexString_spec.
Qed.

Lemma frame_encode_spec_witness :
  Buffer.len (bytes_of "hi") < 16 ^ 10
  /\ hexString (bytes_of "hi") = lit "00000000026869"
  /\ frame_encode (bytes_of "hi") = [x00; x00; x00; x00; x02; x68; x69].
Proof.
  split; [reflexivity|].
  destruct (frame_encode_spec (bytes_of "hi")) as [Hs Hf]; [reflexivity|].
  split; [rewrite Hs | rewrite Hf]; reflexivity.
Defined.

(** ** The backtracking matcher *)

Lemma starts_with_spec (p s r : jsstring) :
  RegExp.starts_with p s = Some r <-> s = p ++ r.
Proof.
  revert s. induction p as [|a p IH]; intros s; cbn [RegExp.starts_with app].
  - split; [now intros [= ->] | now intros ->].
  - destruct s as [|b s].
    + split; discriminate.
    + destruct (N.eqb_spec a b) as [->|Hab].
      * rewrite IH. split; [now intros -> | now intros [= ->]].
      * split; [discriminate | intros [= E _]; congruence].
Qed.

Lemma match_atoms_lazy (d : bool) (rest : list RegExp.atom) (s : jsstring) :
  RegExp.match_atoms d (RegExp.AnyLazy :: rest) s =
  match RegExp.match_atoms d rest s with
  | Some r => Some r
  | None =>
      match s with
      | [] => None
      | c :: s' =>
          if RegExp.dot d c
          then RegExp.match_atoms d (RegExp.AnyLazy :: rest) s'
          else None
      end
  end.
Proof. destruct s; reflexivity. Qed.

Lemma match_atoms_sound (d : bool) (atoms : list RegExp.atom) :
  forall s r, RegExp.match_atoms d atoms s = Some r -> matches d atoms s r.
Proof.
  induction atoms as [|[p|] rest IH]; intros s r H.
  - cbn in H. injection H as ->. constructor.
  - cbn [RegExp.match_atoms] in H.
    destruct (RegExp.starts_with p s) as [s'|] eqn:E; [|discriminate].
    apply starts_with_spec in E. subst s. constructor. now apply IH.
  - induction s as [|c s IHs]; rewrite match_atoms_lazy in H.
    + destruct (RegExp.match_atoms d rest []) as [r'|] eqn:E; [|discriminate].
      injection H as ->. apply (matches_any d [] rest [] r); auto.
    + destruct (RegExp.match_atoms d rest (c :: s)) as [r'|] eqn:E.
      * injection H as ->. apply (matches_any d [] rest (c :: s) r); auto.
      * destruct (RegExp.dot d c) eqn:Hc; [|discriminate].
        specialize (IHs H). inversion IHs as [| |x rest' s' r' Hx Hm]; subst.
        apply (matches_any d (c :: x) rest s' r); auto.
Qed.

Lemma match_atoms_complete (d : bool) (atoms : list RegExp.atom) (s r : jsstring) :
  matches d atoms s r -> exists r', RegExp.match_atoms d atoms s = Some r'.
Proof.
  induction 1 as [s|p rest s r Hm IH|x rest s r Hx Hm IH].
  - now exists s.
  - destruct IH as [r' IH]. exists r'. cbn [RegExp.match_atoms].
    assert (E : RegExp.starts_with p (p ++ s) = Some s)
      by now apply starts_with_spec.
    now rewrite E.
  - destruct IH as [r' IH].
    induction Hx as [|c x Hc Hx IHx]; cbn [app]; rewrite match_atoms_lazy.
    + exists r'. now rewrite IH.
    + destruct (RegExp.match_atoms d rest (c :: x ++ s)) as [r''|].
      * now exists r''.
      * rewrite Hc. exact IHx.
Qed.

Lemma search_sound (R : RegExp.t) :
  forall s i j r,
    RegExp.search R s i = Some (j, r) ->
    exists a s', s = a ++ s' /\ matches (RegExp.dotAll R) (RegExp.source R) s' r.
Proof.
  induction s as [|c s IH]; intros i j r H; cbn [RegExp.search] in H.
  - destruct (RegExp.match_atoms _ _ []) as [r'|] eqn:E.
    + injection H as _ ->. exists [], []. split; [reflexivity|].
      now apply match_atoms_sound.
    + destruct (RegExp.sticky R); discriminate.
  - destruct (RegExp.match_atoms _ _ (c :: s)) as [r'|] eqn:E.
    + injection H as _ ->. exists [], (c :: s). split; [reflexivity|].
      now apply match_atoms_sound.
    + destruct (RegExp.sticky R); [discriminate|].
      destruct (IH _ _ _ H) as (a & s' & -> & Hm).
      now exists (c :: a), s'.
Qed.

Lemma search_complete (R : RegExp.t) (a s' r : jsstring) :
  RegExp.sticky R = false ->
  matches (RegExp.dotAll R) (RegExp.source R) s' r ->
  forall i, exists j r', RegExp.search R (a ++ s') i = Some (j, r').
Proof.
  intros Hy Hm. apply match_atoms_complete in Hm. destruct Hm as [r' Hm].
  induction a as [|c a IH]; intros i; cbn [app].
  - exists i, r'. destruct s'; cbn [RegExp.search]; now rewrite Hm.
  - cbn [RegExp.search].
    destruct (RegExp.match_atoms _ _ (c :: a ++ s')) as [r''|].
    + now exists i, r''.
    + rewrite Hy. apply IH.
Qed.

(** Without the [g] and [y] flags, [test] searches from the start of the
    text whatever [lastIndex] holds, and leaves the object as it was. *)
Lemma test_stateless (R : RegExp.t) (S : jsstring) :
  RegExp.global R = false -> RegExp.sticky R = false ->
  RegExp.test R S =
  (match RegExp.search R S 0 with Some _ => true | None => false end, R).
Proof.
  intros Hg Hy. unfold RegExp.test, RegExp.exec. rewrite Hg, Hy.
  cbn [orb]. change (N.to_nat 0) with O. cbn [skipn].
  destruct (N.ltb_spec (len S) 0) as [H|_]; [lia|].
  destruct (RegExp.search R S 0) as [[i r]|]; reflexivity.
Qed.

Lemma test_true_iff (R : RegExp.t) (S : jsstring) :
  RegExp.global R = false -> RegExp.sticky R = false ->
  fst (RegExp.test R S) = true <->
  exists a s' r, S = a ++ s' /\ matches (RegExp.dotAll R) (RegExp.source R) s' r.
Proof.
  intros Hg Hy. rewrite test_stateless by assumption. cbn [fst]. split.
  - destruct (RegExp.search R S 0) as [[j r]|] eqn:E; [|discriminate].
    intros _. destruct (search_sound _ _ _ _ _ E) as (a & s' & -> & Hm).
    now exists a, s', r.
  - intros (a & s' & r & -> & Hm).
    destruct (search_complete R a s' r Hy Hm 0) as (j & r' & E).
    now rewrite E.
Qed.

(** ** The content filter *)

Lemma regex_source_matches (s r : jsstring) :
  matches true regex_source s r <->
  exists x y z,
    s = lit "<|BEGIN_SYSTEM|>" ++ x ++ lit "<|END_SYSTEM|>" ++ y
          ++ lit "<|BEGIN_USER|>" ++ z ++ lit "<|END_USER|>" ++ r.
Proof.
  unfold regex_source. split.
  - intros H.
    repeat match goal with
           | Hm : matches _ (_ :: _) _ _ |- _ => inversion Hm; subst; clear Hm
           | Hm : matches _ [] _ _ |- _ => inversion Hm; subst; clear Hm
           end.
    eauto.
  - intros (x & y & z & ->).
    repeat first
      [ apply matches_nil
      | apply matches_chars
      | apply matches_any; [apply Forall_forall; reflexivity|] ].
Qed.

Lemma regex_test_true_iff (i : N) (text : jsstring) :
  fst (RegExp.test (regex i) text) = true <-> Spec.contains_block text.
Proof.
  rewrite test_true_iff by reflexivity.
  change (RegExp.dotAll (regex i)) with true.
  change (RegExp.source (regex i)) with regex_source.
  unfold Spec.contains_block. split.
  - intros (a & s' & r & -> & Hm). apply regex_source_matches in Hm.
    destruct Hm as (x & y & z & ->). now exists a, x, y, z, r.
  - intros (a & x & y & z & d & ->).
    eexists a, _, d. split; [reflexivity|].
    apply regex_source_matches. now exists x, y, z.
Qed.

Lemma regex_test_lastIndex (i : N) (text : jsstring) :
  snd (RegExp.test (regex i) text) = regex i.
Proof. now rewrite test_stateless. Qed.

Lemma regex_test_any_lastIndex (i j : N) (text : jsstring) :
  fst (RegExp.test (regex i) text) = fst (RegExp.test (regex j) text).
Proof.
  destruct (fst (RegExp.test (regex i) text)) eqn:Ei;
    destruct (fst (RegExp.test (regex j) text)) eqn:Ej; try reflexivity.
  - apply regex_test_true_iff in Ei.
    apply (proj2 (regex_test_true_iff j text)) in Ei. congruence.
  - apply regex_test_true_iff in Ej.
    apply (proj2 (regex_test_true_iff i text)) in Ej. congruence.
Qed.

Section GunzipProperties.

Context {message_js : MessageJs} {node : NodeJs}.

Lemma after_nil (st : state) : after st [] = st.
Proof. destruct st. unfold after. cbn. now rewrite app_nil_r. Qed.

Lemma regex_test_run (text : jsstring) (st : state) :
  regex_test text st = (fst (RegExp.test (regex 0) text), st).
Proof.
  unfold regex_test.
  pose proof (regex_test_lastIndex (regex_lastIndex st) text) as HR.
  pose proof (regex_test_any_lastIndex (regex_lastIndex st) 0 text) as Hb.
  destruct (RegExp.test (regex (regex_lastIndex st)) text) as [b R].
  cbn [fst snd] in HR, Hb. subst R. rewrite <- Hb. now destruct st.
Qed.

Lemma gunzip_run (chunk : Buffer.t) (st : state) :
  gunzip chunk st = (gunzip_text chunk, after st [CallGunzip chunk]).
Proof.
  unfold gunzip, gunzip_text, bind, emit. fold (after st [CallGunzip chunk]).
  destruct (zlib_gunzip (Buffer.slice_from 5 chunk)) as [d|]; [|reflexivity].
  cbn zeta. rewrite regex_test_run.
  destruct (fst (RegExp.test (regex 0) (toString_utf8 d))); reflexivity.
Qed.

End GunzipProperties.

(** ** Reading a frame back *)

Lemma slice_middle (a b c : jsstring) :
  slice (a ++ b ++ c) (len a) (len a + len b) = b.
Proof.
  unfold slice, len.
  replace (N.to_nat (N.of_nat (List.length a) + N.of_nat (List.length b)
                     - N.of_nat (List.length a)))
    with (List.length b) by lia.
  rewrite Nat2N.id, skipn_app, skipn_all, Nat.sub_diag. cbn [skipn app].
  rewrite firstn_app, firstn_all, Nat.sub_diag. cbn [firstn].
  apply app_nil_r.
Qed.

Lemma byte_hex_of_nibbles (h l : N) :
  h < 16 -> l < 16 ->
  Buffer.byte_hex (Buffer.byte_of_nibbles h l) = [hex_digit h; hex_digit l].
Proof.
  intros Hh Hl. unfold Buffer.byte_hex, Buffer.byte_of_nibbles.
  destruct (Byte.of_N (16 * h + l)) as [b|] eqn:E.
  - apply Byte.to_of_N in E. rewrite E.
    replace ((16 * h + l) / 16) with h
      by (apply N.div_unique with l; lia).
    replace ((16 * h + l) mod 16) with l
      by (apply N.mod_unique with h; lia).
    reflexivity.
  - apply Byte.of_N_None_iff in E. lia.
Qed.

(** The five length bytes render as the ten digits of the length. *)
Lemma toString_hex_length_bytes (n : N) :
  Buffer.toString_hex (Spec.length_bytes n) = fixed_hex 10 n.
Proof.
  rewrite fixed_hex_positional. unfold Spec.length_bytes.
  cbn [map Buffer.toString_hex flat_map seq rev app].
  rewrite !byte_hex_of_nibbles by (apply N.mod_lt; lia).
  reflexivity.
Qed.

Lemma parseInt16_from_fixed_hex (k : nat) :
  forall (n acc : N) (s : jsstring),
    n < 16 ^ N.of_nat k ->
    parseInt16_from acc (fixed_hex k n ++ s) =
    parseInt16_from (acc * 16 ^ N.of_nat k + n) s.
Proof.
  induction k as [|k IH]; intros n acc s Hn.
  - cbn in Hn. assert (n = 0) by lia. subst n. cbn [fixed_hex app].
    rewrite N.pow_0_r. f_equal. lia.
  - rewrite Nat2N.inj_succ, N.pow_succ_r' in *.
    cbn [fixed_hex]. rewrite <- app_assoc. cbn [app].
    rewrite IH by (apply N.Div0.div_lt_upper_bound; lia).
    cbn [parseInt16_from].
    rewrite hex_value_hex_digit by (apply N.mod_lt; lia).
    f_equal. pose proof (N.div_mod n 16). lia.
Qed.

(** [parseInt] of the ten digits is the length. *)
Lemma parseInt16_fixed_hex (n : N) :
  n < 16 ^ 10 -> parseInt16 (fixed_hex 10 n) = Some n.
Proof.
  intros Hn.
  assert (E : exists d tl, d < 16 /\ fixed_hex 10 n = hex_digit d :: tl).
  { rewrite fixed_hex_positional. cbn [seq rev app map].
    eexists _, _. split; [|reflexivity]. apply N.mod_lt. lia. }
  destruct E as (d & tl & Hd & E).
  unfold parseInt16. rewrite E, hex_value_hex_digit by assumption.
  rewrite <- E, <- (app_nil_r (fixed_hex 10 n)).
  rewrite (parseInt16_from_fixed_hex 10) by assumption.
  cbn [parseInt16_from]. f_equal; lia.
Qed.

(** ** [parseInt] on the rendering of a buffer *)

(** [toString(16)] writes the number that [parseInt(.., 16)] reads: the
    fuel of [toString16] is always enough. *)
Lemma toString16_digits_hex (fuel : nat) :
  forall (n : N) (acc : jsstring),
    Forall (fun c => hex_value c <> None) acc ->
    Forall (fun c => hex_value c <> None) (toString16_digits fuel n acc).
Proof.
  induction fuel as [|fuel IH]; intros n acc Hacc; [exact Hacc|].
  cbn [toString16_digits]. destruct (n =? 0); [exact Hacc|].
  apply IH. constructor; [|exact Hacc].
  rewrite hex_value_hex_digit by (apply N.mod_lt; lia). discriminate.
Qed.

Lemma parseInt16_from_zeros (z : nat) (s : jsstring) :
  parseInt16_from 0 (repeat 48 z ++ s) = parseInt16_from 0 s.
Proof. induction z as [|z IH]; [reflexivity|exact IH]. Qed.

Lemma parseInt16_toString16 (n : N) : parseInt16 (toString16 n) = Some n.
Proof.
  unfold toString16. destruct (N.eqb_spec n 0) as [->|Hz]; [reflexivity|].
  set (fuel := N.to_nat (N.size n)).
  assert (Hf : n < 2 ^ N.of_nat fuel).
  { unfold fuel. rewrite N2Nat.id. apply N.size_gt. }
  assert (Hk : n < 16 ^ N.of_nat fuel).
  { eapply N.lt_le_trans; [exact Hf|]. apply N.pow_le_mono_l. lia. }
  destruct (fixed_hex_digits fuel n fuel Hf Hk) as [_ E].
  pose proof (parseInt16_from_fixed_hex fuel n 0 [] Hk) as Hv.
  rewrite app_nil_r, E, parseInt16_from_zeros in Hv.
  cbn [parseInt16_from] in Hv.
  pose proof (toString16_digits_hex fuel n [] (Forall_nil _)) as HF.
  destruct (toString16_digits fuel n []) as [|c s'].
  - cbn in Hv. lia.
  - apply Forall_cons_iff in HF. destruct HF as [Hc _].
    unfold parseInt16. destruct (hex_value c) eqn:Ec; [|congruence].
    f_equal. rewrite Hv. lia.
Qed.


Lemma Forall_slice (P : code_unit -> Prop) (s : jsstring) (a b : N) :
  Forall P s -> Forall P (slice s a b).
Proof.
  intros H. unfold slice.
  rewrite <- (firstn_skipn (N.to_nat a) s) in H.
  apply Forall_app in H. destruct H as [_ H].
  rewrite <- (firstn_skipn (N.to_nat (b - a)) (skipn (N.to_nat a) s)) in H.
  apply Forall_app in H. now destruct H.
Qed.

Lemma toString_hex_digits (buf : Buffer.t) :
  Forall (fun c => hex_value c <> None) (Buffer.toString_hex buf).
Proof.
  induction buf as [|b buf IH]; [constructor|].
  destruct (byte_nibbles b) as [Hh Hl].
  cbn [Buffer.toString_hex flat_map Buffer.byte_hex app].
  repeat constructor;
    try (rewrite hex_value_hex_digit by assumption; discriminate).
  exact IH.
Qed.

(** The ten characters read on line 80 always start with a digit: the
    [NaN] branch of the loop is never taken on the rendering of a chunk. *)
Lemma parseInt16_slice_defined (chunk : Buffer.t) (offset : N) :
  offset < len (Buffer.toString_hex chunk) ->
  exists n,
    parseInt16 (slice (Buffer.toString_hex chunk) offset (offset + 10))
    = Some n.
Proof.
  intros Ho.
  pose proof (Forall_slice _ _ offset (offset + 10) (toString_hex_digits chunk))
    as HF.
  assert (Hne : slice (Buffer.toString_hex chunk) offset (offset + 10) <> []).
  { unfold slice, len in *. intros E. apply (f_equal (@List.length _)) in E.
    rewrite length_firstn, length_skipn in E. cbn [List.length] in E. lia. }
  destruct (slice (Buffer.toString_hex chunk) offset (offset + 10))
    as [|c s']; [congruence|].
  apply Forall_cons_iff in HF. destruct HF as [Hc _].
  unfold parseInt16. destruct (hex_value c); [eauto | congruence].
Qed.

Lemma len_app (a b : jsstring) : len (a ++ b) = len a + len b.
Proof. unfold len. rewrite length_app. lia. Qed.

Lemma len_fixed_hex (k : nat) (n : N) : len (fixed_hex k n) = N.of_nat k.
Proof. unfold len. now rewrite fixed_hex_length. Qed.

Section ParserProperties.

Context {message_js : MessageJs} {node : NodeJs}.

(** One iteration of the loop, as the source has it. *)
Lemma parse_frames_body (hex : jsstring) (offset : N) (results : list jsstring) :
  parse_frames hex offset results =
  if offset <? len hex then
    if len hex <? offset + 10 then Normal results
    else
      match parseInt16 (slice hex offset (offset + 10)) with
      | None =>
          match ResMessage_decode (Buffer.from_hex []) with
          | Throw e => Throw e
          | Normal message => Normal (results ++ [msg message])
          end
      | Some dataLength =>
          if len hex <? offset + 10 + dataLength * 2 then Normal results
          else
            match ResMessage_decode
                    (Buffer.from_hex
                       (slice hex (offset + 10) (offset + 10 + dataLength * 2)))
            with
            | Throw e => Throw e
            | Normal message =>
                parse_frames hex (offset + 10 + dataLength * 2)
                             (results ++ [msg message])
            end
      end
  else Normal results.
Proof.
  funelim (parse_frames hex offset results);
    repeat match goal with
           | H : (_ <? _) = _ |- _ => rewrite H
           | H : parseInt16 _ = _ |- _ => rewrite H
           | H : ResMessage_decode _ = _ |- _ => rewrite H
           end;
    reflexivity.
Qed.

Lemma toString_hex_frame (pre p rest : Buffer.t) :
  Buffer.toString_hex (pre ++ Spec.frame p ++ rest) =
  Buffer.toString_hex pre
  ++ fixed_hex 10 (Buffer.len p)
  ++ Buffer.toString_hex p ++ Buffer.toString_hex rest.
Proof.
  unfold Spec.frame.
  now rewrite <- app_assoc, !toString_hex_app, toString_hex_length_bytes.
Qed.

(** At the start of a complete frame the loop reads the length, decodes
    exactly the payload, and goes on right behind the frame. *)
Lemma parse_frames_step (pre p rest : Buffer.t) (results : list jsstring) :
  Buffer.len p < 16 ^ 10 ->
  parse_frames (Buffer.toString_hex (pre ++ Spec.frame p ++ rest))
               (len (Buffer.toString_hex pre)) results =
  match ResMessage_decode p with
  | Throw e => Throw e
  | Normal message =>
      parse_frames (Buffer.toString_hex (pre ++ Spec.frame p ++ rest))
                   (len (Buffer.toString_hex (pre ++ Spec.frame p)))
                   (results ++ [msg message])
  end.
Proof.
  intros Hp. rewrite parse_frames_body.
  assert (Hnext : len (Buffer.toString_hex (pre ++ Spec.frame p)) =
                  len (Buffer.toString_hex pre) + 10 + Buffer.len p * 2).
  { rewrite !toString_hex_length. unfold Spec.frame, Buffer.len.
    rewrite !length_app. cbn [Spec.length_bytes map List.length]. lia. }
  rewrite Hnext. rewrite toString_hex_frame.
  set (A := Buffer.toString_hex pre).
  set (L := fixed_hex 10 (Buffer.len p)).
  set (P := Buffer.toString_hex p).
  set (R := Buffer.toString_hex rest).
  assert (HL : len L = 10) by apply (len_fixed_hex 10).
  assert (HP : len P = Buffer.len p * 2)
    by (unfold P; rewrite toString_hex_length; lia).
  assert (Hlen : len (A ++ L ++ P ++ R) = len A + 10 + Buffer.len p * 2 + len R)
    by (rewrite !len_app; lia).
  replace (len A <? len (A ++ L ++ P ++ R)) with true
    by (symmetry; apply N.ltb_lt; lia).
  replace (len (A ++ L ++ P ++ R) <? len A + 10) with false
    by (symmetry; apply N.ltb_ge; lia).
  replace (slice (A ++ L ++ P ++ R) (len A) (len A + 10)) with L
    by (rewrite <- HL; symmetry; apply slice_middle).
  unfold L at 1. rewrite parseInt16_fixed_hex by assumption. fold L.
  replace (len (A ++ L ++ P ++ R) <? len A + 10 + Buffer.len p * 2) with false
    by (symmetry; apply N.ltb_ge; lia).
  replace (slice (A ++ L ++ P ++ R) (len A + 10)
                 (len A + 10 + Buffer.len p * 2)) with P.
  - unfold P. rewrite from_hex_toString_hex. reflexivity.
  - replace (len A + 10) with (len (A ++ L)) by (rewrite len_app; lia).
    rewrite <- HP, (app_assoc A L). symmetry. apply slice_middle.
Qed.

(** With fewer than five bytes left there is no room for a length prefix:
    the loop ends with what it has. *)
Lemma parse_frames_stop (pre trailing : Buffer.t) (results : list jsstring) :
  Buffer.len trailing < 5 ->
  parse_frames (Buffer.toString_hex (pre ++ trailing))
               (len (Buffer.toString_hex pre)) results = Normal results.
Proof.
  intros Ht. rewrite parse_frames_body.
  rewrite toString_hex_app, len_app, (toString_hex_length trailing).
  destruct (N.ltb_spec (len (Buffer.toString_hex pre))
              (len (Buffer.toString_hex pre) + 2 * Buffer.len trailing));
    [|reflexivity].
  replace (len (Buffer.toString_hex pre) + 2 * Buffer.len trailing
           <? len (Buffer.toString_hex pre) + 10) with true
    by (symmetry; apply N.ltb_lt; lia).
  reflexivity.
Qed.

(** A length prefix that announces more bytes than are left: the loop ends
    with what it has, and the partial frame is dropped. *)
Lemma parse_frames_overrun (pre partial : Buffer.t) (n : N)
      (results : list jsstring) :
  n < 16 ^ 10 ->
  Buffer.len partial < n ->
  parse_frames (Buffer.toString_hex (pre ++ Spec.length_bytes n ++ partial))
               (len (Buffer.toString_hex pre)) results = Normal results.
Proof.
  intros Hn Hp. rewrite parse_frames_body.
  rewrite !toString_hex_app, toString_hex_length_bytes.
  set (A := Buffer.toString_hex pre).
  set (L := fixed_hex 10 n).
  set (P := Buffer.toString_hex partial).
  assert (HL : len L = 10) by apply (len_fixed_hex 10).
  assert (HP : len P = 2 * Buffer.len partial)
    by (unfold P; apply toString_hex_length).
  assert (Hlen : len (A ++ L ++ P) = len A + 10 + len P)
    by (rewrite !len_app; lia).
  replace (len A <? len (A ++ L ++ P)) with true
    by (symmetry; apply N.ltb_lt; lia).
  replace (len (A ++ L ++ P) <? len A + 10) with false
    by (symmetry; apply N.ltb_ge; lia).
  replace (slice (A ++ L ++ P) (len A) (len A + 10)) with L
    by (rewrite <- HL; symmetry; apply slice_middle).
  unfold L at 1. rewrite parseInt16_fixed_hex by assumption.
  replace (len (A ++ L ++ P) <? len A + 10 + n * 2) with true
    by (symmetry; apply N.ltb_lt; lia).
  reflexivity.
Qed.

End ParserProperties.

Section ChunkProperties.

Context {message_js : MessageJs} {node : NodeJs}.

(** The loop walks through complete, decodable frames one by one, in
    order. *)
Lemma parse_frames_prefix (payloads : list Buffer.t) (texts : list jsstring) :
  fit payloads ->
  Forall2 decodes_to payloads texts ->
  forall (pre rest : Buffer.t) (results : list jsstring),
    parse_frames (Buffer.toString_hex (pre ++ frames payloads ++ rest))
                 (len (Buffer.toString_hex pre)) results =
    parse_frames (Buffer.toString_hex (pre ++ frames payloads ++ rest))
                 (len (Buffer.toString_hex (pre ++ frames payloads)))
                 (results ++ texts).
Proof.
  intros Hfit Hdec. induction Hdec as [|p t ps ts (m & Hm & Ht) Hdec IH];
    intros pre rest results.
  - unfold frames. cbn [map List.concat]. now rewrite !app_nil_r.
  - apply Forall_cons_iff in Hfit. destruct Hfit as [Hp Hfit].
    unfold frames in *. cbn [map List.concat].
    rewrite <- (app_assoc (Spec.frame p)).
    rewrite parse_frames_step, Hm, Ht by assumption.
    rewrite (app_assoc pre (Spec.frame p) (_ ++ rest)).
    rewrite (IH Hfit (pre ++ Spec.frame p) rest (results ++ [t])).
    rewrite <- !app_assoc. reflexivity.
Qed.

(** Complete frames, then fewer than five stray bytes. *)
Lemma parse_complete (payloads : list Buffer.t) (texts : list jsstring)
      (trailing : Buffer.t) :
  fit payloads ->
  Forall2 decodes_to payloads texts ->
  Buffer.len trailing < 5 ->
  parse (frames payloads ++ trailing) = Normal texts.
Proof.
  intros Hfit Hdec Ht. unfold parse.
  pose proof (parse_frames_prefix payloads texts Hfit Hdec [] trailing [])
    as H.
  cbn [app] in H. change (len (Buffer.toString_hex [])) with 0 in H.
  rewrite H. apply (parse_frames_stop (frames payloads) trailing texts Ht).
Qed.

(** Complete frames, then a frame whose payload does not decode. *)
Lemma parse_decode_error (payloads : list Buffer.t) (texts : list jsstring)
      (q rest : Buffer.t) (e : error) :
  fit payloads ->
  Forall2 decodes_to payloads texts ->
  Buffer.len q < 16 ^ 10 ->
  ResMessage_decode q = Throw e ->
  parse (frames payloads ++ Spec.frame q ++ rest) = Throw e.
Proof.
  intros Hfit Hdec Hq He. unfold parse.
  pose proof (parse_frames_prefix payloads texts Hfit Hdec []
                (Spec.frame q ++ rest) []) as H.
  cbn [app] in H. change (len (Buffer.toString_hex [])) with 0 in H.
  rewrite H, parse_frames_step, He by assumption. reflexivity.
Qed.

(** What a call of [chunkToUtf8String] returns and observably does, by the
    way the loop ended. *)
Lemma chunkToUtf8String_run (chunk : Buffer.t) (st : state) :
  chunkToUtf8String chunk st =
  match parse chunk with
  | Normal [] => (gunzip_text chunk, after st [CallGunzip chunk])
  | Normal (t :: ts) => (join (t :: ts), st)
  | Throw _ => (gunzip_text chunk, after st [CallGunzip chunk])
  end.
Proof.
  unfold chunkToUtf8String.
  destruct (parse chunk) as [[|t ts]|e]; try apply gunzip_run.
  reflexivity.
Qed.

End ChunkProperties.

(** ** The claims *)

Section Claims.

Context {message_js : MessageJs} {node : NodeJs}.

(** C2. A chunk that consists of N complete frames and nothing else, each
    payload decoding without error: the loop ends with exactly the N texts,
    in frame order, and the caller receives their concatenation. (For N = 0
    the chunk is empty and the call goes through [gunzip]; the decompressor
    is assumed to get no text out of an empty input.) *)
Theorem parse_complete_frames
        (payloads : list Buffer.t) (texts : list jsstring) (st : state) :
  fit payloads ->
  Forall2 decodes_to payloads texts ->
  payloads <> [] \/ gunzip_of_nothing_is_empty ->
  parse (frames payloads) = Normal texts
  /\ List.length texts = List.length payloads
  /\ fst (chunkToUtf8String (frames payloads) st) = join texts.
Proof.
  intros Hfit Hdec Hne.
  assert (Hparse : parse (frames payloads) = Normal texts).
  { rewrite <- (app_nil_r (frames payloads)).
    now apply parse_complete. }
  split; [exact Hparse|]. split; [symmetry; eapply Forall2_length; eauto|].
  rewrite chunkToUtf8String_run, Hparse.
  destruct Hdec as [|p t ps ts _ _]; [|reflexivity].
  destruct Hne as [Hne|Hz]; [congruence|].
  cbn [fst frames map List.concat join]. unfold gunzip_text.
  cbn [Buffer.slice_from skipn].
  destruct (zlib_gunzip []) as [d|] eqn:E; [|reflexivity].
  rewrite (Hz d E). cbn zeta.
  now destruct (fst (RegExp.test (regex 0) [])).
Qed.

(** C7. One complete, decodable frame followed by the beginning of a second
    length prefix (fewer than five bytes, that is fewer than ten hexadecimal
    characters): the loop ends with the one text of the first frame, the
    call returns it without going through [gunzip], and the stray bytes
    play no part. *)
Theorem parse_truncated_prefix
        (p trailing : Buffer.t) (t : jsstring) (st : state) :
  Buffer.len p < 16 ^ 10 ->
  decodes_to p t ->
  Buffer.len trailing < 5 ->
  parse (Spec.frame p ++ trailing) = Normal [t]
  /\ chunkToUtf8String (Spec.frame p ++ trailing) st = (t, st).
Proof.
  intros Hp Hd Ht.
  assert (Hparse : parse (Spec.frame p ++ trailing) = Normal [t]).
  { pose proof (parse_complete [p] [t] trailing) as H.
    unfold frames in H. cbn [map List.concat] in H.
    rewrite app_nil_r in H. apply H; try assumption.
    - now constructor.
    - now constructor. }
  split; [exact Hparse|].
  rewrite chunkToUtf8String_run, Hparse. cbn [join List.concat].
  now rewrite app_nil_r.
Qed.

(** C3. A call of [chunkToUtf8String] always returns a text. When the loop
    ended with zero results, or [ResMessage.decode] threw on some frame --
    in particular on a frame that follows frames already decoded -- the
    text is what [gunzip] makes of the original chunk, whole and unchanged,
    and nothing of the frames decoded so far. *)
Theorem chunkToUtf8String_falls_back (chunk : Buffer.t) (st : state) :
  (exists text es, chunkToUtf8String chunk st = (text, after st es))
  /\ ((parse chunk = Normal [] \/ exists e, parse chunk = Throw e) ->
      chunkToUtf8String chunk st =
      (gunzip_text chunk, after st [CallGunzip chunk]))
  /\ (forall payloads texts q rest e,
         fit payloads -> Forall2 decodes_to payloads texts ->
         Buffer.len q < 16 ^ 10 -> ResMessage_decode q = Throw e ->
         chunk = frames payloads ++ Spec.frame q ++ rest ->
         chunkToUtf8String chunk st =
         (gunzip_text chunk, after st [CallGunzip chunk])).
Proof.
  rewrite chunkToUtf8String_run. repeat split.
  - destruct (parse chunk) as [[|t ts]|e]; eauto.
    exists (join (t :: ts)), []. now rewrite after_nil.
  - intros [H|[e H]]; now rewrite H.
  - intros payloads texts q rest e Hfit Hdec Hq He ->.
    now rewrite (parse_decode_error payloads texts q rest e).
Qed.

(** C9 (amended). When the loop ends without a decode error and with at
    least one result -- as it does on one or more complete, decodable
    frames followed by bytes that make no further complete frame -- the
    call returns the joined results and [gunzip] is not called, even if
    every result is the empty string and so is the text returned. [gunzip]
    is called exactly when the loop ended with zero results or by a decode
    error; a decode error on a later frame sends also a chunk with frames
    already decoded to [gunzip]. *)
Theorem no_fallback_with_results (chunk : Buffer.t) (st : state) :
  (forall results,
      parse chunk = Normal results -> results <> [] ->
      chunkToUtf8String chunk st = (join results, st)
      /\ (Forall (fun t => t = []) results ->
          chunkToUtf8String chunk st = ([], st)))
  /\ (forall payloads texts trailing,
         payloads <> [] -> fit payloads ->
         Forall2 decodes_to payloads texts ->
         Buffer.len trailing < 5 ->
         chunk = frames payloads ++ trailing ->
         chunkToUtf8String chunk st = (join texts, st))
  /\ (snd (chunkToUtf8String chunk st) <> st ->
      parse chunk = Normal [] \/ exists e, parse chunk = Throw e)
  /\ (parse chunk = Normal [] \/ (exists e, parse chunk = Throw e) ->
      snd (chunkToUtf8String chunk st) = after st [CallGunzip chunk]
      /\ snd (chunkToUtf8String chunk st) <> st).
Proof.
  rewrite chunkToUtf8String_run. split; [|split; [|split]].
  - intros results Hparse Hne. rewrite Hparse.
    destruct results as [|t ts]; [congruence|].
    split; [reflexivity|]. intros Hall. f_equal.
    clear Hparse Hne. induction Hall as [|x l -> _ IH]; [reflexivity|].
    exact IH.
  - intros payloads texts trailing Hne Hfit Hdec Ht ->.
    rewrite (parse_complete payloads texts trailing Hfit Hdec Ht).
    destruct Hdec; [congruence | reflexivity].
  - destruct (parse chunk) as [[|t ts]|e]; cbn [snd]; eauto.
    congruence.
  - assert (Hneq : after st [CallGunzip chunk] <> st).
    { intros E. apply (f_equal (fun x => List.length (trace x))) in E.
      unfold after in E. cbn [trace] in E. rewrite length_app in E.
      cbn [List.length] in E. lia. }
    intros [H|[e H]]; rewrite H; cbn [snd]; now split.
Qed.

(** C10. The text returned by [chunkToUtf8String] is a function of the
    chunk alone: it is the same whatever the [lastIndex] of [regex], the
    state of the random source and the calls made before, and the call
    leaves [lastIndex] and the random source as they were. *)
Theorem chunkToUtf8String_deterministic (chunk : Buffer.t) (st1 st2 : state) :
  fst (chunkToUtf8String chunk st1) = fst (chunkToUtf8String chunk st2)
  /\ regex_lastIndex (snd (chunkToUtf8String chunk st1)) = regex_lastIndex st1
  /\ random (snd (chunkToUtf8String chunk st1)) = random st1.
Proof.
  rewrite !chunkToUtf8String_run.
  destruct (parse chunk) as [[|t ts]|e]; repeat split; reflexivity.
Qed.

End Claims.

Section EncodeProperties.

Context {message_js : MessageJs} {node : NodeJs}.

Lemma fresh_uuid_trace (st : state) : trace (snd (fresh_uuid st)) = trace st.
Proof. unfold fresh_uuid. now destruct (uuidv4 (random st)). Qed.

Lemma format_messages_trace (msgs : list raw_message) :
  forall st, trace (snd (mapM format_message msgs st)) = trace st.
Proof.
  induction msgs as [|m msgs IH]; intros st; [reflexivity|].
  cbn [mapM]. unfold bind at 1. unfold format_message at 1.
  unfold bind at 1. pose proof (fresh_uuid_trace st) as Hu.
  destruct (fresh_uuid st) as [id st1]. cbn [snd] in Hu.
  unfold ret at 1. unfold bind at 1. specialize (IH st1).
  destruct (mapM format_message msgs st1) as [bs st2]. cbn [snd] in IH.
  unfold ret. cbn [snd]. congruence.
Qed.

(** Building the message draws identifiers and makes no observable call. *)
Lemma build_message_trace (msgs : list raw_message) (modelName : value)
      (st : state) :
  trace (snd (build_message msgs modelName st)) = trace st.
Proof.
  unfold build_message. unfold bind at 1.
  pose proof (format_messages_trace msgs st) as H1.
  destruct (mapM format_message msgs st) as [fm st1]. cbn [snd] in H1.
  unfold bind at 1. pose proof (fresh_uuid_trace st1) as H2.
  destruct (fresh_uuid st1) as [r st2]. cbn [snd] in H2.
  unfold bind at 1. pose proof (fresh_uuid_trace st2) as H3.
  destruct (fresh_uuid st2) as [c st3]. cbn [snd] in H3.
  unfold ret. cbn [snd]. congruence.
Qed.

(** C8. When the schema rejects the request object with a diagnostic
    message, [stringToHex] throws an [Error] carrying that message; it
    returns no buffer, and the encoder has not been called. *)
Theorem stringToHex_validation_failure
        (msgs : list raw_message) (modelName : value) (st st' : state)
        (message : chat_message) (errMsg : jsstring) :
  build_message msgs modelName st = (message, st') ->
  ChatMessage_verify message = Some errMsg ->
  errMsg <> [] ->
  stringToHex msgs modelName st = (Throw (Error errMsg), st')
  /\ trace st' = trace st.
Proof.
  intros Hb Hv Hne. split.
  - unfold stringToHex, bind. rewrite Hb. cbn zeta. rewrite Hv.
    destruct errMsg as [|c s]; [congruence|]. reflexivity.
  - pose proof (build_message_trace msgs modelName st) as H.
    now rewrite Hb in H.
Qed.

(** When the schema accepts the object, the result is the frame around the
    encoded message. *)
Lemma stringToHex_accepted
      (msgs : list raw_message) (modelName : value) (st st' : state)
      (message : chat_message) :
  build_message msgs modelName st = (message, st') ->
  ChatMessage_verify message = None ->
  stringToHex msgs modelName st =
  (Normal (frame_encode (ChatMessage_encode (ChatMessage_create message))),
   after st' [CallEncode (ChatMessage_create message)]).
Proof.
  intros Hb Hv. unfold stringToHex, bind. rewrite Hb. cbn zeta.
  rewrite Hv. reflexivity.
Qed.

(** C5. [gunzip] always resolves to a text. [zlib.gunzip] is applied to the
    chunk without its first five bytes, and to nothing else: the text
    depends on the chunk only through those bytes; when decompression of
    them fails the text is empty; when it succeeds the text is the
    decompressed text, unless that contains a complete system block
    followed by a complete user block, in which case it is empty. *)
Theorem gunzip_skips_header (chunk : Buffer.t) (st : state) :
  (exists text, gunzip chunk st = (text, after st [CallGunzip chunk]))
  /\ (forall chunk',
         skipn 5 chunk' = skipn 5 chunk ->
         fst (gunzip chunk' st) = fst (gunzip chunk st))
  /\ (zlib_gunzip (skipn 5 chunk) = None -> fst (gunzip chunk st) = [])
  /\ (forall d,
         zlib_gunzip (skipn 5 chunk) = Some d ->
         fst (gunzip chunk st) = []
         \/ fst (gunzip chunk st) = toString_utf8 d)
  /\ (forall d,
         zlib_gunzip (skipn 5 chunk) = Some d ->
         ~ Spec.contains_block (toString_utf8 d) ->
         fst (gunzip chunk st) = toString_utf8 d)
  /\ (forall d,
         zlib_gunzip (skipn 5 chunk) = Some d ->
         Spec.contains_block (toString_utf8 d) ->
         fst (gunzip chunk st) = [])
  /\ fst (gunzip chunk st)
     = match zlib_gunzip (skipn 5 chunk) with
       | None => []
       | Some d =>
           if fst (RegExp.test (regex 0) (toString_utf8 d)) then []
           else toString_utf8 d
       end.
Proof.
  rewrite gunzip_run. cbn [fst]. repeat apply conj.
  - eauto.
  - intros chunk' H. rewrite gunzip_run. cbn [fst].
    unfold gunzip_text, Buffer.slice_from. now rewrite H.
  - intros H. unfold gunzip_text, Buffer.slice_from. now rewrite H.
  - intros d H. unfold gunzip_text, Buffer.slice_from. rewrite H. cbn zeta.
    destruct (fst (RegExp.test (regex 0) (toString_utf8 d))); auto.
  - intros d H Hno. unfold gunzip_text, Buffer.slice_from. rewrite H.
    cbn zeta.
    destruct (fst (RegExp.test (regex 0) (toString_utf8 d))) eqn:E;
      [|reflexivity].
    apply regex_test_true_iff in E. contradiction.
  - intros d H Hyes. unfold gunzip_text, Buffer.slice_from. rewrite H.
    cbn zeta. apply (regex_test_true_iff 0) in Hyes. now rewrite Hyes.
  - reflexivity.
Qed.

(** C6. When decompression succeeds: a text that contains a complete system
    block followed by a complete user block is replaced by the empty
    string, in particular the text
    [<|BEGIN_SYSTEM|>x<|END_SYSTEM|>y<|BEGIN_USER|>z<|END_USER|>];
    any other text is returned as it is. *)
Theorem gunzip_content_filter (chunk d : Buffer.t) (st : state) :
  zlib_gunzip (skipn 5 chunk) = Some d ->
  (Spec.contains_block (toString_utf8 d) -> fst (gunzip chunk st) = [])
  /\ (~ Spec.contains_block (toString_utf8 d) ->
      fst (gunzip chunk st) = toString_utf8 d)
  /\ (toString_utf8 d =
      lit "<|BEGIN_SYSTEM|>x<|END_SYSTEM|>y<|BEGIN_USER|>z<|END_USER|>" ->
      fst (gunzip chunk st) = []).
Proof.
  intros Hz. rewrite gunzip_run. cbn [fst].
  unfold gunzip_text, Buffer.slice_from. rewrite Hz. cbn zeta.
  assert (Hyes : Spec.contains_block (toString_utf8 d) ->
                 (if fst (RegExp.test (regex 0) (toString_utf8 d))
                  then [] else toString_utf8 d) = []).
  { intros H. apply (regex_test_true_iff 0) in H. now rewrite H. }
  repeat split.
  - exact Hyes.
  - intros H.
    destruct (fst (RegExp.test (regex 0) (toString_utf8 d))) eqn:E;
      [|reflexivity].
    apply regex_test_true_iff in E. contradiction.
  - intros E. apply Hyes. rewrite E.
    exists [], (lit "x"), (lit "y"), (lit "z"), []. reflexivity.
Qed.

End EncodeProperties.

(** ** The framing of a request is the framing the parser reads *)

Section Framing.

Context {message_js : MessageJs} {node : NodeJs}.

(** What [stringToHex] puts around a buffer, [chunkToUtf8String] takes off
    again: the decoder is handed exactly that buffer. *)
Lemma frame_encode_parse (buffer : Buffer.t) :
  Buffer.len buffer < 16 ^ 10 ->
  parse (frame_encode buffer) =
  match ResMessage_decode buffer with
  | Normal message => Normal [msg message]
  | Throw e => Throw e
  end.
Proof.
  intros Hb. rewrite frame_encode_frame by assumption.
  destruct (ResMessage_decode buffer) as [m|e] eqn:E.
  - pose proof (parse_complete [buffer] [msg m] []) as H.
    unfold frames in H. cbn [map List.concat] in H.
    rewrite !app_nil_r in H. apply H.
    + now constructor.
    + constructor; [now exists m | constructor].
    + reflexivity.
  - pose proof (parse_decode_error [] [] buffer [] e) as H.
    unfold frames in H. cbn [map List.concat app] in H.
    rewrite app_nil_r in H. apply H; try assumption; constructor.
Qed.

End Framing.

(** ** The claims on the sample runtime *)

Module SampleRuns.

Import Sample.

Lemma parse_complete_frames_witness :
  parse (frames [hi; []; bang]) = Normal [lit "hi"; []; lit "!"]
  /\ List.length [lit "hi"; []; lit "!"] = List.length [hi; []; bang]
  /\ fst (chunkToUtf8String (frames [hi; []; bang]) st0)
     = join [lit "hi"; []; lit "!"].
Proof.
  apply (parse_complete_frames [hi; []; bang] [lit "hi"; []; lit "!"] st0).
  - repeat constructor.
  - repeat (constructor; [eexists; split; reflexivity|]). constructor.
  - left. discriminate.
Defined.

Lemma parse_truncated_prefix_witness :
  parse (Spec.frame hi ++ [x00; x00; x00]) = Normal [lit "hi"]
  /\ chunkToUtf8String (Spec.frame hi ++ [x00; x00; x00]) st0 = (lit "hi", st0).
Proof.
  apply (parse_truncated_prefix hi [x00; x00; x00] (lit "hi") st0).
  - reflexivity.
  - eexists. split; reflexivity.
  - reflexivity.
Defined.

Lemma chunkToUtf8String_falls_back_witness :
  chunkToUtf8String (Spec.frame hi ++ Spec.frame [xff]) st0 =
  (gunzip_text (Spec.frame hi ++ Spec.frame [xff]),
   after st0 [CallGunzip (Spec.frame hi ++ Spec.frame [xff])]).
Proof.
  apply (chunkToUtf8String_falls_back (Spec.frame hi ++ Spec.frame [xff]) st0).
  right. eexists. vm_compute. reflexivity.
Defined.

Lemma no_fallback_with_results_witness :
  chunkToUtf8String [x00; x00; x00; x00; x00] st0 = ([], st0).
Proof.
  apply (proj1 (no_fallback_with_results [x00; x00; x00; x00; x00] st0) [[]]).
  - vm_compute. reflexivity.
  - discriminate.
  - repeat constructor.
Defined.

(** C9, as first stated, fails: the first frame of this chunk is extracted
    and decoded, the payload of the second does not decode, and the chunk
    goes to [gunzip]. *)
Lemma fallback_after_decoded_frame :
  (exists p t rest,
      Spec.frame hi ++ Spec.frame [xff] = Spec.frame p ++ rest
      /\ Buffer.len p < 16 ^ 10
      /\ decodes_to p t)
  /\ chunkToUtf8String (Spec.frame hi ++ Spec.frame [xff]) st0
     = (gunzip_text (Spec.frame hi ++ Spec.frame [xff]),
        after st0 [CallGunzip (Spec.frame hi ++ Spec.frame [xff])])
  /\ trace (snd (chunkToUtf8String (Spec.frame hi ++ Spec.frame [xff]) st0))
     = [CallGunzip (Spec.frame hi ++ Spec.frame [xff])]
  /\ trace (snd (chunkToUtf8String (Spec.frame hi ++ Spec.frame [xff]) st0))
     <> trace st0.
Proof.
  repeat apply conj.
  - exists hi, (lit "hi"), (Spec.frame [xff]). repeat apply conj.
    + reflexivity.
    + reflexivity.
    + eexists. split; reflexivity.
  - vm_compute. reflexivity.
  - vm_compute. reflexivity.
  - vm_compute. discriminate.
Defined.

Lemma gunzip_skips_header_witness :
  fst (gunzip [x01; x02; x03; x04; x05; x06; x07] st0) = []
  /\ fst (gunzip ([x01; x02; x03; x04; x05; x1f; x8b] ++ bytes_of "hello") st0)
     = lit "hello".
Proof.
  split.
  - apply (proj1 (proj2 (proj2
             (gunzip_skips_header [x01; x02; x03; x04; x05; x06; x07] st0)))).
    reflexivity.
  - apply (proj1 (proj2 (proj2 (proj2 (proj2
             (gunzip_skips_header
                ([x01; x02; x03; x04; x05; x1f; x8b] ++ bytes_of "hello")
                st0)))))
             (bytes_of "hello")).
    + reflexivity.
    + intros H. apply (regex_test_true_iff 0) in H. discriminate H.
Defined.

Lemma gunzip_content_filter_witness :
  fst (gunzip ([x01; x02; x03; x04; x05; x1f; x8b] ++ bytes_of sentinel) st0)
  = [].
Proof.
  apply (gunzip_content_filter
           ([x01; x02; x03; x04; x05; x1f; x8b] ++ bytes_of sentinel)
           (bytes_of sentinel) st0).
  - reflexivity.
  - reflexivity.
Defined.

Lemma stringToHex_validation_failure_witness :
  stringToHex bad_request (Str (lit "gpt-4o")) st0 =
  (Throw (Error (lit "messages.content: string expected")),
   snd (build_message bad_request (Str (lit "gpt-4o")) st0))
  /\ trace (snd (build_message bad_request (Str (lit "gpt-4o")) st0))
     = trace st0.
Proof.
  apply (stringToHex_validation_failure bad_request (Str (lit "gpt-4o")) st0
           (snd (build_message bad_request (Str (lit "gpt-4o")) st0))
           (fst (build_message bad_request (Str (lit "gpt-4o")) st0))).
  - apply surjective_pairing.
  - reflexivity.
  - discriminate.
Defined.

(** Section 8 of the specification: the payload [hi] is framed as the text
    [0000000002] followed by [6869], read back as bytes. *)
Example frame_hi :
  hexString (bytes_of "hi") = lit "00000000026869"
  /\ frame_encode (bytes_of "hi") = [x00; x00; x00; x00; x02; x68; x69].
Proof. split; reflexivity. Qed.

(** Two frames in one chunk, then two stray bytes. *)
Example two_frames_and_rest :
  chunkToUtf8String (Spec.frame hi ++ Spec.frame bang ++ [x00; x00]) st0
  = (lit "hi!", st0).
Proof. vm_compute. reflexivity. Qed.

(** A frame cut off inside its payload is dropped; with nothing decoded
    before it, the chunk goes to [gunzip]. *)
Example cut_payload :
  parse (Spec.frame hi ++ [x00; x00; x00; x00; x09; x0a; x07]) = Normal [lit "hi"]
  /\ parse [x00; x00; x00; x00; x09; x0a; x07] = Normal []
  /\ trace (snd (chunkToUtf8String [x00; x00; x00; x00; x09; x0a; x07] st0))
     = [CallGunzip [x00; x00; x00; x00; x09; x0a; x07]].
Proof. repeat split; vm_compute; reflexivity. Qed.

(** A decompressed text without the block is returned as it is, and one
    that lacks only the end of the user block as well. *)
Example gunzip_verbatim :
  fst (gunzip ([x00; x00; x00; x00; x00; x1f; x8b] ++ bytes_of "hello") st0)
  = lit "hello"
  /\ fst (gunzip ([x00; x00; x00; x00; x00; x1f; x8b]
                  ++ bytes_of "<|BEGIN_SYSTEM|>x<|END_SYSTEM|>y<|BEGIN_USER|>z")
                 st0)
     = lit "<|BEGIN_SYSTEM|>x<|END_SYSTEM|>y<|BEGIN_USER|>z".
Proof. split; vm_compute; reflexivity. Qed.

(** The block may sit anywhere in the text and span lines. *)
Example gunzip_block_inside :
  fst (gunzip ([x00; x00; x00; x00; x00; x1f; x8b]
               ++ bytes_of "a" ++ [x0a] ++ bytes_of sentinel ++ [x0a]
               ++ bytes_of "b") st0) = [].
Proof. vm_compute. reflexivity. Qed.

(** The encode path, unlike the decode path, draws from the random source:
    one identifier per message, one for the request and one for the
    conversation. *)
Example stringToHex_draws :
  random (snd (stringToHex
                 [ {| raw_role := Str (lit "user"); raw_content := Str (lit "hi") |} ]
                 (Str (lit "gpt-4o")) st0)) = 3
  /\ random (snd (chunkToUtf8String (Spec.frame hi) st0)) = 0.
Proof. split; vm_compute; reflexivity. Qed.

(** Any role other than [user] is sent as 2. *)
Example roles :
  map role_number [Str (lit "user"); Str (lit "assistant"); Str (lit "system"); Null]
  = [1; 2; 2; 2].
Proof. reflexivity. Qed.

(** The empty chunk: no frame, so [gunzip] is called, and it gets no text
    out of nothing. *)
Example empty_chunk :
  gunzip_of_nothing_is_empty
  /\ chunkToUtf8String [] st0 = ([], after st0 [CallGunzip []]).
Proof. split; [intros d H; discriminate H | reflexivity]. Qed.

End SampleRuns.

(** ** Every result of the loop comes from a frame *)

Lemma toString_hex_lower (buf : Buffer.t) :
  Forall lower_hex (Buffer.toString_hex buf).
Proof.
  induction buf as [|b buf IH]; [constructor|].
  destruct (byte_nibbles b) as [Hh Hl].
  cbn [Buffer.toString_hex flat_map Buffer.byte_hex app].
  constructor; [eexists; split; [|reflexivity]; assumption|].
  constructor; [eexists; split; [|reflexivity]; assumption|]. exact IH.
Qed.

Lemma parseInt16_from_app (s t : jsstring) :
  Forall lower_hex s ->
  forall acc,
    parseInt16_from acc (s ++ t) = parseInt16_from (parseInt16_from acc s) t.
Proof.
  induction 1 as [|c s (d & Hd & ->) _ IH]; intros acc; [reflexivity|].
  cbn [app parseInt16_from]. rewrite hex_value_hex_digit by assumption.
  apply IH.
Qed.

(** Digits read by [parseInt] and written back in the same width are the
    same digits. *)
Lemma fixed_hex_parseInt16_from (s : jsstring) :
  Forall lower_hex s ->
  fixed_hex (List.length s) (parseInt16_from 0 s) = s
  /\ parseInt16_from 0 s < 16 ^ N.of_nat (List.length s).
Proof.
  induction s as [|c s IH] using rev_ind; intros H.
  - split; [reflexivity|]. cbn. lia.
  - apply Forall_app in H. destruct H as [Hs Hc].
    apply Forall_cons_iff in Hc. destruct Hc as [(d & Hd & ->) _].
    destruct (IH Hs) as [E B].
    rewrite parseInt16_from_app by assumption.
    cbn [parseInt16_from]. rewrite hex_value_hex_digit by assumption.
    rewrite length_app. cbn [List.length]. rewrite Nat.add_1_r.
    set (v := parseInt16_from 0 s) in *.
    assert (Hq : (16 * v + d) / 16 = v)
      by (symmetry; apply N.div_unique with d; lia).
    assert (Hr : (16 * v + d) mod 16 = d)
      by (symmetry; apply N.mod_unique with v; lia).
    split.
    + cbn [fixed_hex]. now rewrite Hq, Hr, E.
    + rewrite Nat2N.inj_succ, N.pow_succ_r'. lia.
Qed.

(** Any five bytes are the length bytes of a number below 16^10. *)
Lemma five_bytes (l : Buffer.t) :
  List.length l = 5%nat ->
  exists n, n < 16 ^ 10 /\ l = Spec.length_bytes n.
Proof.
  intros Hl.
  pose proof (fixed_hex_parseInt16_from _ (toString_hex_lower l)) as [E B].
  assert (Hlen : List.length (Buffer.toString_hex l) = 10%nat).
  { pose proof (toString_hex_length l) as H. unfold len, Buffer.len in H.
    rewrite Hl in H. lia. }
  rewrite Hlen in E, B.
  exists (parseInt16_from 0 (Buffer.toString_hex l)). split; [exact B|].
  rewrite <- toString_hex_length_bytes in E.
  apply (f_equal Buffer.from_hex) in E.
  now rewrite !from_hex_toString_hex in E.
Qed.

Lemma buffer_split (n : nat) (buf : Buffer.t) :
  (n <= List.length buf)%nat ->
  exists a b, buf = a ++ b /\ List.length a = n.
Proof.
  intros H. exists (firstn n buf), (skipn n buf). split.
  - symmetry. apply firstn_skipn.
  - rewrite length_firstn. lia.
Qed.

Section LoopInversion.

Context {message_js : MessageJs} {node : NodeJs}.

Lemma parse_frames_inv (k : nat) :
  forall (rest pre : Buffer.t) (results : list jsstring),
    (List.length rest <= k)%nat ->
    match parse_frames (Buffer.toString_hex (pre ++ rest))
                       (len (Buffer.toString_hex pre)) results with
    | Normal out =>
        exists payloads texts tail,
          rest = frames payloads ++ tail
          /\ fit payloads
          /\ Forall2 decodes_to payloads texts
          /\ incomplete tail
          /\ out = results ++ texts
    | Throw e =>
        exists payloads texts q rest',
          rest = frames payloads ++ Spec.frame q ++ rest'
          /\ fit payloads
          /\ Forall2 decodes_to payloads texts
          /\ Buffer.len q < 16 ^ 10
          /\ ResMessage_decode q = Throw e
    end.
Proof.
  induction k as [|k IH]; intros rest pre results Hk.
  - destruct rest; [|cbn in Hk; lia].
    rewrite (parse_frames_stop pre [] results) by reflexivity.
    exists [], [], []. repeat apply conj.
    + reflexivity.
    + constructor.
    + constructor.
    + left. reflexivity.
    + now rewrite app_nil_r.
  - destruct (N.ltb_spec (Buffer.len rest) 5) as [Hshort|Hlong].
    { rewrite (parse_frames_stop pre rest results Hshort).
      exists [], [], rest. repeat apply conj.
      - reflexivity.
      - constructor.
      - constructor.
      - now left.
      - now rewrite app_nil_r. }
    destruct (buffer_split 5 rest) as (l & rest1 & -> & Hl);
      [unfold Buffer.len in Hlong; lia|].
    destruct (five_bytes l Hl) as (n & Hn & ->).
    destruct (N.ltb_spec (Buffer.len rest1) n) as [Hover|Hfull].
    { rewrite (parse_frames_overrun pre rest1 n results Hn Hover).
      exists [], [], (Spec.length_bytes n ++ rest1). repeat apply conj.
      - reflexivity.
      - constructor.
      - constructor.
      - right. now exists n, rest1.
      - now rewrite app_nil_r. }
    destruct (buffer_split (N.to_nat n) rest1) as (p & rest2 & -> & Hp);
      [unfold Buffer.len in Hfull; lia|].
    assert (Hpn : Buffer.len p = n) by (unfold Buffer.len; lia).
    assert (Hframe : Spec.length_bytes n ++ p ++ rest2 = Spec.frame p ++ rest2).
    { unfold Spec.frame. now rewrite Hpn, <- app_assoc. }
    rewrite Hframe. rewrite parse_frames_step by (rewrite Hpn; exact Hn).
    destruct (ResMessage_decode p) as [m|e] eqn:Hdec.
    + rewrite (app_assoc pre (Spec.frame p) rest2).
      assert (Hk2 : (List.length rest2 <= k)%nat).
      { rewrite !length_app in Hk. rewrite Hl in Hk. lia. }
      specialize (IH rest2 (pre ++ Spec.frame p) (results ++ [msg m]) Hk2).
      destruct (parse_frames _ _ _) as [out|e].
      * destruct IH as (ps & ts & tail & -> & Hfit & Hd & Hinc & ->).
        exists (p :: ps), (msg m :: ts), tail. repeat apply conj.
        -- unfold frames. cbn [map List.concat].
           now rewrite <- app_assoc.
        -- constructor; [rewrite Hpn; exact Hn | exact Hfit].
        -- constructor; [now exists m | exact Hd].
        -- exact Hinc.
        -- now rewrite <- app_assoc.
      * destruct IH as (ps & ts & q & r' & -> & Hfit & Hd & Hq & He).
        exists (p :: ps), (msg m :: ts), q, r'. repeat apply conj.
        -- unfold frames. cbn [map List.concat].
           now rewrite <- app_assoc.
        -- constructor; [rewrite Hpn; exact Hn | exact Hfit].
        -- constructor; [now exists m | exact Hd].
        -- exact Hq.
        -- exact He.
    + exists [], [], p, rest2. repeat apply conj.
      * reflexivity.
      * constructor.
      * constructor.
      * rewrite Hpn. exact Hn.
      * exact Hdec.
Qed.

End LoopInversion.

(** ** Further properties of the codec *)

Lemma to_N_byte_of_nibbles (h l : N) :
  h < 16 -> l < 16 -> Byte.to_N (Buffer.byte_of_nibbles h l) = 16 * h + l.
Proof.
  intros Hh Hl. unfold Buffer.byte_of_nibbles.
  destruct (Byte.of_N (16 * h + l)) as [b|] eqn:E.
  - now apply Byte.to_of_N.
  - apply Byte.of_N_None_iff in E. lia.
Qed.

Lemma nibbles_of_byte_digit (n i : N) :
  16 * (n / 16 ^ (2 * i + 1) mod 16) + n / 16 ^ (2 * i) mod 16
  = n / 256 ^ i mod 256.
Proof.
  rewrite N.pow_add_r, N.pow_1_r, <- N.Div0.div_div.
  change 256 with (16 ^ 2). rewrite <- N.pow_mul_r.
  set (m := n / 16 ^ (2 * i)).
  change (16 ^ 2) with (16 * 16). rewrite N.Div0.mod_mul_r. lia.
Qed.

Lemma length_bytes_big_endian (n : N) :
  map Byte.to_N (Spec.length_bytes n)
  = map (fun i => n / 256 ^ i mod 256) [4; 3; 2; 1; 0].
Proof.
  unfold Spec.length_bytes. rewrite map_map. apply map_ext. intros i.
  rewrite to_N_byte_of_nibbles by (apply N.mod_lt; lia).
  apply nibbles_of_byte_digit.
Qed.

(** X1. The frame that lines 55-58 build is the payload itself behind five
    bytes that hold its length as a big-endian number: the detour through
    hexadecimal text changes no payload byte. *)
Theorem frame_encode_layout (p : Buffer.t) :
  Buffer.len p < 16 ^ 10 ->
  map Byte.to_N (firstn 5 (frame_encode p))
  = map (fun i => Buffer.len p / 256 ^ i mod 256) [4; 3; 2; 1; 0]
  /\ skipn 5 (frame_encode p) = p
  /\ Buffer.len (frame_encode p) = Buffer.len p + 5.
Proof.
  intros Hp. rewrite frame_encode_frame by assumption. unfold Spec.frame.
  repeat apply conj.
  - change (firstn 5 (Spec.length_bytes (Buffer.len p) ++ p))
      with (Spec.length_bytes (Buffer.len p)).
    apply length_bytes_big_endian.
  - reflexivity.
  - unfold Buffer.len. rewrite length_app.
    change (List.length (Spec.length_bytes (N.of_nat (List.length p))))
      with 5%nat.
    lia.
Qed.

Lemma frame_encode_layout_witness :
  map Byte.to_N (firstn 5 (frame_encode (bytes_of "hi"))) = [0; 0; 0; 0; 2]
  /\ skipn 5 (frame_encode (bytes_of "hi")) = bytes_of "hi"
  /\ Buffer.len (frame_encode (bytes_of "hi")) = 7.
Proof. apply (frame_encode_layout (bytes_of "hi")). reflexivity. Defined.

Section CodecProperties.

Context {message_js : MessageJs} {node : NodeJs}.

(** Complete frames followed by bytes that do not make a frame. *)
Lemma parse_incomplete_tail (payloads : list Buffer.t) (texts : list jsstring)
      (tail : Buffer.t) :
  fit payloads ->
  Forall2 decodes_to payloads texts ->
  incomplete tail ->
  parse (frames payloads ++ tail) = Normal texts.
Proof.
  intros Hfit Hdec [Ht|(n & partial & Hn & -> & Hp)].
  - now apply parse_complete.
  - unfold parse.
    pose proof (parse_frames_prefix payloads texts Hfit Hdec []
                  (Spec.length_bytes n ++ partial) []) as H.
    cbn [app] in H. change (len (Buffer.toString_hex [])) with 0 in H.
    rewrite H. now apply parse_frames_overrun.
Qed.

(** X2. The loop ends normally with [texts] exactly when the chunk is a
    sequence of complete frames whose payloads decode to [texts], in that
    order, followed by bytes that do not make another frame (fewer than
    five, or a length prefix that announces more than follows): no text is
    invented, none of a complete leading frame is lost. *)
Theorem parse_normal_iff (chunk : Buffer.t) (texts : list jsstring) :
  parse chunk = Normal texts <->
  exists payloads tail,
    chunk = frames payloads ++ tail
    /\ fit payloads
    /\ Forall2 decodes_to payloads texts
    /\ incomplete tail.
Proof.
  split.
  - intros H.
    pose proof (parse_frames_inv (List.length chunk) chunk [] []
                  (Nat.le_refl _)) as Hinv.
    cbn [app] in Hinv. change (len (Buffer.toString_hex [])) with 0 in Hinv.
    unfold parse in H. rewrite H in Hinv.
    destruct Hinv as (ps & ts & tail & -> & Hfit & Hd & Hinc & ->).
    now exists ps, tail.
  - intros (ps & tail & -> & Hfit & Hd & Hinc).
    now apply parse_incomplete_tail.
Qed.

(** X3. The loop ends by an error [e] exactly when the chunk begins with
    complete, decodable frames followed by a complete frame on whose
    payload [ResMessage.decode] throws [e]; what follows that frame is
    never looked at. *)
Theorem parse_throw_iff (chunk : Buffer.t) (e : error) :
  parse chunk = Throw e <->
  exists payloads texts q rest,
    chunk = frames payloads ++ Spec.frame q ++ rest
    /\ fit payloads
    /\ Forall2 decodes_to payloads texts
    /\ Buffer.len q < 16 ^ 10
    /\ ResMessage_decode q = Throw e.
Proof.
  split.
  - intros H.
    pose proof (parse_frames_inv (List.length chunk) chunk [] []
                  (Nat.le_refl _)) as Hinv.
    cbn [app] in Hinv. change (len (Buffer.toString_hex [])) with 0 in Hinv.
    unfold parse in H. rewrite H in Hinv. exact Hinv.
  - intros (ps & ts & q & rest & -> & Hfit & Hd & Hq & He).
    now apply (parse_decode_error ps ts).
Qed.

Lemma length_bytes_length (n : N) : List.length (Spec.length_bytes n) = 5%nat.
Proof. reflexivity. Qed.

Lemma incomplete_cut (p : Buffer.t) (k : nat) :
  Buffer.len p < 16 ^ 10 ->
  (k < List.length (Spec.frame p))%nat ->
  incomplete (firstn k (Spec.frame p)).
Proof.
  intros Hp Hk. unfold Spec.frame in *.
  rewrite length_app, length_bytes_length in Hk.
  rewrite firstn_app, length_bytes_length.
  destruct (Nat.lt_ge_cases k 5) as [Hlt|Hge].
  - left. unfold Buffer.len.
    rewrite length_app, !length_firstn, length_bytes_length. lia.
  - right. exists (Buffer.len p), (firstn (k - 5) p). repeat apply conj.
    + exact Hp.
    + now rewrite firstn_all2 by (rewrite length_bytes_length; lia).
    + unfold Buffer.len. rewrite length_firstn. lia.
Qed.

(** X4. A frame cut anywhere before its last byte contributes nothing: after
    complete frames the call returns their texts only, and a chunk that is
    nothing but the beginning of a frame is handed to [gunzip] -- the text
    of a frame split between two chunks is not recovered from its first
    part. *)
Theorem cut_frame_is_dropped
        (payloads : list Buffer.t) (texts : list jsstring) (p : Buffer.t)
        (k : nat) (st : state) :
  fit payloads ->
  Forall2 decodes_to payloads texts ->
  Buffer.len p < 16 ^ 10 ->
  (k < List.length (Spec.frame p))%nat ->
  parse (frames payloads ++ firstn k (Spec.frame p)) = Normal texts
  /\ (payloads = [] ->
      chunkToUtf8String (firstn k (Spec.frame p)) st
      = (gunzip_text (firstn k (Spec.frame p)),
         after st [CallGunzip (firstn k (Spec.frame p))])).
Proof.
  intros Hfit Hd Hp Hk.
  assert (H : parse (frames payloads ++ firstn k (Spec.frame p)) = Normal texts)
    by (apply parse_incomplete_tail; auto using incomplete_cut).
  split; [exact H|]. intros ->. inversion Hd; subst.
  unfold frames in H. cbn [map List.concat app] in H.
  now rewrite chunkToUtf8String_run, H.
Qed.

(** X5. A chunk of fewer than five bytes never yields a frame: it goes to
    [gunzip], which hands [zlib] the empty buffer, so all such chunks get
    the text of the empty input. *)
Theorem short_chunk_falls_back (chunk : Buffer.t) (st : state) :
  Buffer.len chunk < 5 ->
  chunkToUtf8String chunk st
  = (gunzip_text [], after st [CallGunzip chunk]).
Proof.
  intros H. rewrite chunkToUtf8String_run.
  replace (parse chunk) with (@Normal (list jsstring) []).
  - f_equal. unfold gunzip_text, Buffer.slice_from.
    rewrite skipn_all2 by (unfold Buffer.len in H; lia). reflexivity.
  - symmetry. apply (parse_complete [] [] chunk); [constructor|constructor|exact H].
Qed.

Lemma contains_block_nil : ~ Spec.contains_block [].
Proof.
  intros (a & x & y & z & d & E). apply (f_equal (@List.length _)) in E.
  rewrite !length_app in E. cbn in E. lia.
Qed.

(** X6. The text that [gunzip] resolves to is either empty or exactly the
    decompressed text, and it never contains a complete system block
    followed by a complete user block, whatever the chunk. *)
Theorem gunzip_never_returns_block (chunk : Buffer.t) (st : state) :
  (fst (gunzip chunk st) = []
   \/ exists d, zlib_gunzip (Buffer.slice_from 5 chunk) = Some d
                /\ fst (gunzip chunk st) = toString_utf8 d)
  /\ ~ Spec.contains_block (fst (gunzip chunk st)).
Proof.
  rewrite gunzip_run. cbn [fst]. unfold gunzip_text.
  destruct (zlib_gunzip (Buffer.slice_from 5 chunk)) as [d|];
    [|split; [now left | apply contains_block_nil]].
  cbn zeta.
  destruct (fst (RegExp.test (regex 0) (toString_utf8 d))) eqn:E;
    [split; [now left | apply contains_block_nil]|].
  split; [right; now exists d|].
  intros H. apply (regex_test_true_iff 0) in H. congruence.
Qed.

End CodecProperties.

Section RequestProperties.

Context {message_js : MessageJs} {node : NodeJs}.

Lemma draws_app (a b : nat) :
  forall r,
    draws (a + b) r =
    (fst (draws a r) ++ fst (draws b (snd (draws a r))),
     snd (draws b (snd (draws a r)))).
Proof.
  induction a as [|a IH]; intros r; cbn [Nat.add draws].
  - cbn [fst snd app]. now destruct (draws b r).
  - destruct (uuidv4 r) as [id r1]. rewrite IH.
    destruct (draws a r1) as [l1 r2]. reflexivity.
Qed.

Lemma role_number_user (r : value) :
  (role_number r = 1 <-> r = Str (lit "user"))
  /\ (role_number r = 1 \/ role_number r = 2).
Proof.
  destruct r as [| |n|s]; cbn [role_number];
    try (split; [split; [discriminate|discriminate] | now right]).
  destruct (list_eq_dec N.eq_dec s (lit "user")) as [->|Hne].
  - split; [now split | now left].
  - split; [|now right]. split; [discriminate|]. intros [= E]. contradiction.
Qed.

Lemma format_messages_run (msgs : list raw_message) :
  forall st,
  exists fm,
    mapM format_message msgs st
    = (fm, mkState (regex_lastIndex st)
                   (snd (draws (List.length msgs) (random st))) (trace st))
    /\ Forall2 (fun raw m => content m = raw_content raw
                             /\ role m = role_number (raw_role raw)) msgs fm
    /\ map message_id fm = fst (draws (List.length msgs) (random st)).
Proof.
  induction msgs as [|m msgs IH]; intros st.
  - exists []. cbn. repeat apply conj; try constructor. now destruct st.
  - cbn [mapM List.length draws]. unfold bind at 1.
    unfold format_message at 1. unfold bind at 1. unfold fresh_uuid at 1.
    destruct (uuidv4 (random st)) as [id r1]. unfold ret at 1.
    unfold bind at 1.
    destruct (IH (mkState (regex_lastIndex st) r1 (trace st)))
      as (fm & E & HF & Hid).
    cbn [regex_lastIndex random trace] in E, Hid. rewrite E.
    destruct (draws (List.length msgs) r1) as [ids r2].
    cbn [fst snd] in *.
    eexists. repeat apply conj.
    + reflexivity.
    + constructor; [|exact HF]. split; reflexivity.
    + cbn [map message_id]. now rewrite Hid.
Qed.

Lemma build_message_run (msgs : list raw_message) (modelName : value)
      (st : state) :
  exists fm request_id conversation_id,
    build_message msgs modelName st
    = ({| messages := fm;
          instructions :=
            {| instruction := lit "Always respond in " ++ [20013; 25991] |};
          projectPath := lit "/path/to/project";
          model := {| name := modelName; empty := [] |};
          requestId := request_id;
          summary := [];
          conversationId := conversation_id |},
       mkState (regex_lastIndex st)
               (snd (draws (List.length msgs + 2) (random st))) (trace st))
    /\ Forall2 (fun raw m => content m = raw_content raw
                             /\ role m = role_number (raw_role raw)) msgs fm
    /\ map message_id fm ++ [request_id; conversation_id]
       = fst (draws (List.length msgs + 2) (random st)).
Proof.
  destruct (format_messages_run msgs st) as (fm & E & HF & Hid).
  unfold build_message. unfold bind at 1. rewrite E.
  unfold bind at 1. unfold fresh_uuid at 1. cbn [random regex_lastIndex trace].
  rewrite draws_app. cbn [draws fst snd].
  destruct (uuidv4 (snd (draws (List.length msgs) (random st)))) as [rid r1].
  unfold bind at 1. unfold fresh_uuid at 1. cbn [random regex_lastIndex trace].
  destruct (uuidv4 r1) as [cid r2]. unfold ret. cbn [fst snd].
  exists fm, rid, cid. repeat apply conj.
  - reflexivity.
  - exact HF.
  - now rewrite Hid.
Qed.

(** X7. The request object keeps the messages as they came, in number and
    order and with their content untouched; the role becomes 1 for the
    string [user] and 2 for anything else (another string, a missing or a
    non-string role); the model name is passed on as given. *)
Theorem build_message_messages
        (msgs : list raw_message) (modelName : value) (st : state) :
  let message := fst (build_message msgs modelName st) in
  Forall2 (fun raw m =>
             content m = raw_content raw
             /\ (role m = 1 <-> raw_role raw = Str (lit "user"))
             /\ (role m = 1 \/ role m = 2))
          msgs (messages message)
  /\ name (model message) = modelName.
Proof.
  destruct (build_message_run msgs modelName st)
    as (fm & rid & cid & E & HF & _).
  cbn zeta. rewrite E. cbn [fst messages model name]. split; [|reflexivity].
  clear E. induction HF as [|raw m l l' [Hc Hr] _ IH]; [constructor|].
  constructor; [|exact IH].
  rewrite Hr. split; [exact Hc|]. apply role_number_user.
Qed.

(** X8. Building a request of n messages draws exactly n + 2 identifiers
    from the random source: the first n become the message identifiers in
    message order, then come the request identifier and the conversation
    identifier. No identifier is used twice unless the source repeats
    itself. *)
Theorem build_message_identifiers
        (msgs : list raw_message) (modelName : value) (st : state) :
  let message := fst (build_message msgs modelName st) in
  let ids := map message_id (messages message)
             ++ [requestId message; conversationId message] in
  ids = fst (draws (List.length msgs + 2) (random st))
  /\ random (snd (build_message msgs modelName st))
     = snd (draws (List.length msgs + 2) (random st))
  /\ (NoDup (fst (draws (List.length msgs + 2) (random st))) -> NoDup ids).
Proof.
  destruct (build_message_run msgs modelName st)
    as (fm & rid & cid & E & _ & Hid).
  cbn zeta. rewrite E. cbn [fst snd messages requestId conversationId random].
  repeat apply conj.
  - exact Hid.
  - reflexivity.
  - now rewrite Hid.
Qed.

(** X9. What [stringToHex] returns for a request that the schema accepts is
    one frame as [chunkToUtf8String] reads frames: parsing it hands
    [ResMessage.decode] exactly the bytes that [ChatMessage.encode]
    produced, once, and nothing is left over. *)
Theorem stringToHex_read_back
        (msgs : list raw_message) (modelName : value) (st : state) :
  let message := fst (build_message msgs modelName st) in
  let buffer := ChatMessage_encode (ChatMessage_create message) in
  ChatMessage_verify message = None ->
  Buffer.len buffer < 16 ^ 10 ->
  exists out,
    fst (stringToHex msgs modelName st) = Normal out
    /\ out = Spec.frame buffer
    /\ parse out =
       match ResMessage_decode buffer with
       | Normal m => Normal [msg m]
       | Throw e => Throw e
       end.
Proof.
  cbn zeta. intros Hv Hlen.
  destruct (build_message msgs modelName st) as [message st'] eqn:E.
  cbn [fst] in *.
  rewrite (stringToHex_accepted msgs modelName st st' message E Hv).
  cbn [fst]. eexists. repeat apply conj.
  - reflexivity.
  - now apply frame_encode_frame.
  - now apply frame_encode_parse.
Qed.

End RequestProperties.

(** ** [getRandomIDPro] and the checksum *)

Lemma dictionary_not_empty (o : id_options) : 0 < len (dictionary o).
Proof.
  unfold dictionary.
  destruct (customDict o) as [[|c d]|]; cbn [truthy].
  2: { unfold len. cbn [List.length]. lia. }
  all: destruct (dictType o) as [| |n|t]; try reflexivity;
    destruct (list_eq_dec N.eq_dec t (lit "alphabet")); try reflexivity;
    destruct (list_eq_dec N.eq_dec t (lit "max")); reflexivity.
Qed.

Section RandomIdProperties.

Context {math : MathJs}.

Lemma char_at_in (dict : jsstring) (i : N) :
  i < len dict ->
  exists c, StringOps.char_at dict i = [c] /\ In c dict.
Proof.
  intros Hi. unfold StringOps.char_at.
  destruct (nth_error dict (N.to_nat i)) as [c|] eqn:E.
  - exists c. split; [reflexivity|]. eapply nth_error_In; eauto.
  - apply nth_error_None in E. unfold len in Hi. lia.
Qed.

Lemma random_chars_spec (n : nat) (dict : jsstring) :
  0 < len dict ->
  forall random r,
  exists added,
    fst (random_chars n dict random r) = random ++ added
    /\ List.length added = n
    /\ Forall (fun c => In c dict) added.
Proof.
  intros Hd. induction n as [|n IH]; intros random r; cbn [random_chars].
  - exists []. cbn [fst]. repeat apply conj; [now rewrite app_nil_r|reflexivity|constructor].
  - pose proof (Math_random_times_lt (len dict) r Hd) as Hi.
    destruct (Math_random_times (len dict) r) as [i r']. cbn [fst] in Hi.
    destruct (char_at_in dict i Hi) as (c & -> & Hc).
    destruct (IH (random ++ [c]) r') as (added & E & Hl & HF).
    exists (c :: added). rewrite E. repeat apply conj.
    + now rewrite <- app_assoc.
    + cbn [List.length]. now rewrite Hl.
    + now constructor.
Qed.

Lemma getRandomIDPro_run (o : id_options) (r : math_source) :
  List.length (fst (getRandomIDPro o r)) = size o
  /\ Forall (fun c => In c (dictionary o)) (fst (getRandomIDPro o r)).
Proof.
  unfold getRandomIDPro.
  destruct (random_chars_spec (size o) (dictionary o)
              (dictionary_not_empty o) [] r) as (added & E & Hl & HF).
  rewrite E. cbn [app]. now split.
Qed.

(** X10. [getRandomIDPro] returns exactly [size] characters, every one of
    them taken from the character set in effect: the custom set when one
    is given and not empty, otherwise the letters for ['alphabet'], the 64
    characters for ['max'] and the ten digits for anything else. *)
Theorem getRandomIDPro_spec (o : id_options) (r : math_source) :
  List.length (fst (getRandomIDPro o r)) = size o
  /\ Forall (fun c => In c (dictionary o)) (fst (getRandomIDPro o r))
  /\ (forall c d, customDict o = Some (c :: d) -> dictionary o = c :: d)
  /\ (truthy (customDict o) = false ->
      dictionary o = dict_alphabet \/ dictionary o = dict_max
      \/ dictionary o = dict_digits).
Proof.
  destruct (getRandomIDPro_run o r) as [Hl HF].
  repeat apply conj; try assumption.
  - intros c d H. unfold dictionary. now rewrite H.
  - intros H. unfold dictionary. rewrite H.
    destruct (dictType o) as [| |n|t]; auto.
    destruct (list_eq_dec N.eq_dec t (lit "alphabet")); auto.
    destruct (list_eq_dec N.eq_dec t (lit "max")); auto.
Qed.

(** X11. The checksum sent upstream is the request's own header when there
    is one, else the environment's value, and only else a generated one.
    The generated one is [zo], 70 characters, a slash and 64 characters,
    137 in all, with the 134 drawn from the 64-character set. *)
Theorem checksum_spec (header env : option jsstring) (r : math_source) :
  (forall h, header = Some h -> checksum header env r = (h, r))
  /\ (forall e, header = None -> env = Some e -> checksum header env r = (e, r))
  /\ (header = None -> env = None ->
      exists a b,
        fst (checksum header env r) = lit "zo" ++ a ++ lit "/" ++ b
        /\ List.length a = 70%nat /\ List.length b = 64%nat
        /\ Forall (fun c => In c dict_max) (a ++ b)
        /\ List.length (fst (checksum header env r)) = 137%nat).
Proof.
  repeat apply conj.
  - now intros h ->.
  - now intros e -> ->.
  - intros -> ->. cbn [checksum].
    set (o6 := {| size := 6; dictType := Str (lit "max"); customDict := None |}).
    set (o64 := {| size := 64; dictType := Str (lit "max"); customDict := None |}).
    destruct (getRandomIDPro_run o6 r) as (La & Fa).
    destruct (getRandomIDPro o6 r) as [a r1]. cbn [fst] in La, Fa.
    destruct (getRandomIDPro_run o64 r1) as (Lb & Fb).
    destruct (getRandomIDPro o64 r1) as [b r2]. cbn [fst] in Lb, Fb.
    destruct (getRandomIDPro_run o64 r2) as (Lc & Fc).
    destruct (getRandomIDPro o64 r2) as [c r3]. cbn [fst] in Lc, Fc.
    change (dictionary o6) with dict_max in Fa.
    change (dictionary o64) with dict_max in Fb, Fc.
    subst o6 o64. cbn [fst size] in *. exists (a ++ b), c. repeat apply conj.
    + now rewrite <- !app_assoc.
    + rewrite length_app. lia.
    + exact Lc.
    + repeat (apply Forall_app; split); assumption.
    + rewrite !length_app. cbn [List.length lit]. cbn. lia.
Qed.

End RandomIdProperties.

(** ** The clean-up of the collected text *)

Lemma occurs_nil (p : jsstring) : p <> [] -> ~ occurs p [].
Proof.
  intros Hp (a & b & E). apply (f_equal (@List.length _)) in E.
  rewrite !length_app in E. destruct p; [congruence|]. cbn in E. lia.
Qed.

Lemma occurs_cons (p : jsstring) (c : code_unit) (s : jsstring) :
  occurs p (c :: s) <->
  (exists r, RegExp.starts_with p (c :: s) = Some r) \/ occurs p s.
Proof.
  split.
  - intros ([|x a] & b & E).
    + left. exists b. now apply starts_with_spec.
    + right. injection E as _ E. now exists a, b.
  - intros [[r E]|(a & b & E)].
    + apply starts_with_spec in E. now exists [], r.
    + exists (c :: a), b. cbn [app]. now rewrite E.
Qed.

Lemma occurs_inside (p a x b : jsstring) : occurs p x -> occurs p (a ++ x ++ b).
Proof.
  intros (u & v & ->). exists (a ++ u), (v ++ b).
  now rewrite <- !app_assoc.
Qed.

(** The greedy wildcard before a literal finds the last place where the
    literal starts. *)
Lemma greedy_chars_none (p : jsstring) (s : jsstring) :
  forall i,
    Rx.match_atoms true [Rx.AnyGreedy; Rx.Chars p] i s = None <-> ~ occurs p s.
Proof.
  induction s as [|c s IH]; intros i.
  - cbn. destruct p as [|x p].
    + split; [discriminate|]. intros H. exfalso. apply H. now exists [], [].
    + split; [intros _; now apply occurs_nil | reflexivity].
  - rewrite occurs_cons.
    change (Rx.match_atoms true [Rx.AnyGreedy; Rx.Chars p] i (c :: s))
      with (match Rx.match_atoms true [Rx.AnyGreedy; Rx.Chars p] (i + 1) s with
            | Some r => Some r
            | None =>
                match RegExp.starts_with p (c :: s) with
                | Some s' => Some s'
                | None => None
                end
            end).
    specialize (IH (i + 1)).
    destruct (Rx.match_atoms true [Rx.AnyGreedy; Rx.Chars p] (i + 1) s) as [r|].
    + split; [discriminate|]. intros H. exfalso.
      assert (Hn : ~ ~ occurs p s) by (intros Hn; apply IH in Hn; discriminate).
      apply Hn. intros Ho. apply H. now right.
    + destruct (RegExp.starts_with p (c :: s)) as [s'|].
      * split; [discriminate|]. intros H. exfalso. apply H. left. now exists s'.
      * split; [|reflexivity]. intros _ [[r E]|Ho]; [discriminate|].
        now apply IH.
Qed.

Lemma greedy_chars_some (p : jsstring) (s : jsstring) :
  p <> [] ->
  forall i r,
    Rx.match_atoms true [Rx.AnyGreedy; Rx.Chars p] i s = Some r ->
    (exists a, s = a ++ p ++ r) /\ ~ occurs p r.
Proof.
  intros Hp. induction s as [|c s IH]; intros i r H.
  - cbn in H. destruct p; [congruence|discriminate].
  - change (Rx.match_atoms true [Rx.AnyGreedy; Rx.Chars p] i (c :: s))
      with (match Rx.match_atoms true [Rx.AnyGreedy; Rx.Chars p] (i + 1) s with
            | Some r => Some r
            | None =>
                match RegExp.starts_with p (c :: s) with
                | Some s' => Some s'
                | None => None
                end
            end) in H.
    destruct (Rx.match_atoms true [Rx.AnyGreedy; Rx.Chars p] (i + 1) s)
      as [r'|] eqn:E.
    + injection H as ->. destruct (IH _ _ E) as [(a & ->) Hno].
      split; [now exists (c :: a) | exact Hno].
    + apply greedy_chars_none in E.
      destruct (RegExp.starts_with p (c :: s)) as [s'|] eqn:Es; [|discriminate].
      injection H as ->. apply starts_with_spec in Es.
      split; [now exists []|].
      intros Ho. apply E. destruct p as [|x p]; [congruence|].
      injection Es as _ ->. destruct Ho as (u & v & ->).
      exists (p ++ u), v. now rewrite <- app_assoc.
Qed.

Lemma search_bol (d : bool) (rest : list Rx.atom) (s : jsstring) :
  forall i, i <> 0 -> Rx.search d (Rx.Bol :: rest) s i = None.
Proof.
  induction s as [|c s IH]; intros i Hi; cbn [Rx.search Rx.match_atoms];
    destruct (N.eqb_spec i 0); try contradiction; [reflexivity|].
  apply IH. lia.
Qed.

(** An expression anchored by [^] is tried at the start only. *)
Lemma replace_anchored (d : bool) (rest : list Rx.atom) (s : jsstring) :
  Rx.replace_empty d (Rx.Bol :: rest) s =
  match Rx.match_atoms d rest 0 s with
  | Some r => r
  | None => s
  end.
Proof.
  unfold Rx.replace_empty.
  destruct s as [|c s]; cbn [Rx.search Rx.match_atoms N.eqb].
  - now destruct (Rx.match_atoms d rest 0 []).
  - destruct (Rx.match_atoms d rest 0 (c :: s)); [reflexivity|].
    now rewrite search_bol.
Qed.

(** The first replacement leaves what follows the last marker. *)
Lemma strip_spec (text : jsstring) :
  let out := Rx.replace_empty true up_to_end_user text in
  (~ occurs (lit "<|END_USER|>") text -> out = text)
  /\ (occurs (lit "<|END_USER|>") text ->
      exists a, text = a ++ lit "<|END_USER|>" ++ out)
  /\ ~ occurs (lit "<|END_USER|>") out.
Proof.
  cbn zeta. unfold up_to_end_user. rewrite replace_anchored.
  destruct (Rx.match_atoms true [Rx.AnyGreedy; Rx.Chars (lit "<|END_USER|>")]
              0 text) as [r|] eqn:E.
  - apply greedy_chars_some in E; [|discriminate]. destruct E as [(a & ->) Hno].
    repeat apply conj.
    + intros H. exfalso. apply H. now exists a, r.
    + intros _. now exists a.
    + exact Hno.
  - apply greedy_chars_none in E. repeat apply conj.
    + reflexivity.
    + intros H. contradiction.
    + exact E.
Qed.

(** The second replacement removes a leading line feed, and the letter
    after it if there is one. *)
Lemma newline_letter_spec (s : jsstring) :
  Rx.replace_empty false newline_letter s =
  match s with
  | 10 :: c :: rest => if is_letter c then rest else c :: rest
  | [10] => []
  | _ => s
  end.
Proof.
  unfold newline_letter. rewrite replace_anchored.
  destruct s as [|x s]; [reflexivity|].
  cbn [Rx.match_atoms RegExp.starts_with].
  destruct (N.eqb_spec 10 x) as [<-|Hx].
  - destruct s as [|c rest]; [reflexivity|].
    unfold is_letter. now destruct (Rx.in_ranges _ c).
  - destruct x as [|x]; [reflexivity|].
    repeat (destruct x as [x|x|]; try reflexivity); congruence.
Qed.

Lemma trimStart_suffix (s : jsstring) : exists a, s = a ++ StringOps.trimStart s.
Proof.
  induction s as [|c s [a IH]]; [now exists []|].
  cbn [StringOps.trimStart]. destruct (StringOps.is_space c).
  - exists (c :: a). cbn [app]. now rewrite <- IH.
  - now exists [].
Qed.

Lemma trimStart_head (s : jsstring) (c : code_unit) (t : jsstring) :
  StringOps.trimStart s = c :: t -> StringOps.is_space c = false.
Proof.
  induction s as [|x s IH]; [discriminate|].
  cbn [StringOps.trimStart]. destruct (StringOps.is_space x) eqn:E; [exact IH|].
  now intros [= <- _].
Qed.

Lemma trimStart_snoc (u : jsstring) (c : code_unit) :
  StringOps.is_space c = false ->
  StringOps.trimStart (u ++ [c]) = StringOps.trimStart u ++ [c].
Proof.
  intros Hc. induction u as [|x u IH]; cbn [app StringOps.trimStart].
  - now rewrite Hc.
  - now destruct (StringOps.is_space x).
Qed.

Lemma trimEnd_prefix (s : jsstring) : exists b, s = StringOps.trimEnd s ++ b.
Proof.
  unfold StringOps.trimEnd. destruct (trimStart_suffix (rev s)) as [a E].
  exists (rev a). rewrite <- rev_app_distr, <- E. symmetry. apply rev_involutive.
Qed.

Lemma trimEnd_last (s t : jsstring) (c : code_unit) :
  StringOps.trimEnd s = t ++ [c] -> StringOps.is_space c = false.
Proof.
  unfold StringOps.trimEnd. intros E. apply (f_equal (@rev _)) in E.
  rewrite rev_involutive, rev_app_distr in E. cbn [rev app] in E.
  now apply trimStart_head in E.
Qed.

Lemma trimEnd_cons (c : code_unit) (t : jsstring) :
  StringOps.is_space c = false ->
  StringOps.trimEnd (c :: t) = c :: StringOps.trimEnd t.
Proof.
  intros Hc. unfold StringOps.trimEnd. cbn [rev].
  rewrite trimStart_snoc by assumption.
  now rewrite rev_app_distr.
Qed.

(** [trim] cuts white space off both ends and nothing else. *)
Lemma trim_spec (s : jsstring) :
  (exists a b, s = a ++ StringOps.trim s ++ b)
  /\ (forall c t, StringOps.trim s = c :: t -> StringOps.is_space c = false)
  /\ (forall c t, StringOps.trim s = t ++ [c] -> StringOps.is_space c = false).
Proof.
  unfold StringOps.trim. repeat apply conj.
  - destruct (trimStart_suffix s) as [a Ea].
    destruct (trimEnd_prefix (StringOps.trimStart s)) as [b Eb].
    exists a, b. now rewrite <- Eb.
  - intros c t E. destruct (StringOps.trimStart s) as [|x u] eqn:Es.
    + discriminate.
    + pose proof (trimStart_head _ _ _ Es) as Hx.
      rewrite trimEnd_cons in E by assumption. now injection E as <- _.
  - intros c t. apply trimEnd_last.
Qed.

(** The marker cannot overlap itself. *)
Lemma end_user_no_overlap (b : jsstring) :
  occurs (lit "<|END_USER|>") (tl (lit "<|END_USER|>") ++ b) ->
  occurs (lit "<|END_USER|>") b.
Proof.
  intros (a & b' & E). cbn in E.
  do 11 (destruct a as [|? a]; [discriminate E | injection E as _ E]).
  now exists a, b'.
Qed.

Lemma strip_suffix (text : jsstring) :
  exists a, text = a ++ Rx.replace_empty true up_to_end_user text.
Proof.
  unfold up_to_end_user. rewrite replace_anchored.
  destruct (Rx.match_atoms true [Rx.AnyGreedy; Rx.Chars (lit "<|END_USER|>")]
              0 text) as [r|] eqn:E.
  - apply greedy_chars_some in E; [|discriminate]. destruct E as [(a & ->) _].
    exists (a ++ lit "<|END_USER|>"). now rewrite <- app_assoc.
  - now exists [].
Qed.

(** X12. The content of a non-streaming answer is cut out of the collected
    text -- nothing is added --, never contains the marker [<|END_USER|>]
    and neither begins nor ends with white space. *)
Theorem clean_text_spec (text : jsstring) :
  (exists a b, text = a ++ clean_text text ++ b)
  /\ ~ occurs (lit "<|END_USER|>") (clean_text text)
  /\ (forall c t, clean_text text = c :: t -> StringOps.is_space c = false)
  /\ (forall c t, clean_text text = t ++ [c] -> StringOps.is_space c = false).
Proof.
  unfold clean_text.
  destruct (strip_spec text) as (Hsame & Hcut & Hno). cbn zeta in *.
  set (s1 := Rx.replace_empty true up_to_end_user text) in *.
  assert (H1 : exists a, text = a ++ s1) by apply strip_suffix.
  set (s2 := Rx.replace_empty false newline_letter s1).
  assert (H2 : exists a, s1 = a ++ s2).
  { unfold s2. rewrite newline_letter_spec.
    destruct s1 as [|x s1']; [now exists []|].
    destruct (N.eqb_spec x 10) as [->|Hx].
    - destruct s1' as [|c rest]; [now exists [10]|].
      destruct (is_letter c); [now exists [10; c] | now exists [10]].
    - exists []. destruct x as [|x]; [reflexivity|].
      repeat (destruct x as [x|x|]; try reflexivity); congruence. }
  destruct (trim_spec s2) as ((a3 & b3 & E3) & Hh & Hl).
  destruct H1 as [a1 E1]. destruct H2 as [a2 E2].
  repeat apply conj.
  - exists (a1 ++ a2 ++ a3), b3.
    rewrite E1 at 1. rewrite E2 at 1. rewrite E3 at 1.
    now rewrite <- !app_assoc.
  - intros Ho. apply Hno. rewrite E2, E3, app_assoc.
    now apply occurs_inside.
  - exact Hh.
  - exact Hl.
Qed.

Lemma app_eq_longer (A : Type) (a a' u v : list A) :
  a ++ u = a' ++ v ->
  (List.length a < List.length a')%nat ->
  exists x w, a' = a ++ x :: w /\ u = x :: w ++ v.
Proof.
  revert a'. induction a as [|y a IH]; intros a' E Hl.
  - destruct a' as [|x w]; [cbn in Hl; lia|]. now exists x, w.
  - destruct a' as [|x w]; [cbn in Hl; lia|].
    cbn [app] in E. injection E as -> E. cbn [List.length] in Hl.
    destruct (IH w E) as (x' & w' & -> & ->); [lia|]. now exists x', w'.
Qed.

Lemma last_marker_unique (a b a' b' : jsstring) :
  a ++ lit "<|END_USER|>" ++ b = a' ++ lit "<|END_USER|>" ++ b' ->
  ~ occurs (lit "<|END_USER|>") b ->
  ~ occurs (lit "<|END_USER|>") b' ->
  b = b'.
Proof.
  intros E Hb Hb'.
  destruct (Nat.lt_trichotomy (List.length a) (List.length a')) as [H|[H|H]].
  - exfalso. destruct (app_eq_longer _ _ _ _ _ E H) as (x & w & -> & E').
    apply Hb, end_user_no_overlap. cbn [lit tl] in *. cbn in E'.
    injection E' as _ E'. cbn. rewrite E'. now exists w, b'.
  - assert (Ea : a = a').
    { apply (f_equal (firstn (List.length a))) in E.
      rewrite firstn_app, firstn_all, Nat.sub_diag in E. cbn [firstn] in E.
      rewrite H, firstn_app, firstn_all, Nat.sub_diag in E. cbn [firstn] in E.
      now rewrite !app_nil_r in E. }
    subst a'. apply app_inv_head in E. now apply app_inv_head in E.
  - exfalso. symmetry in E.
    destruct (app_eq_longer _ _ _ _ _ E H) as (x & w & -> & E').
    apply Hb', end_user_no_overlap. cbn in E'.
    injection E' as _ E'. cbn. rewrite E'. now exists w, b.
Qed.

(** X13. Everything up to and including the last [<|END_USER|>] is thrown
    away: a text with the marker cleans to what the part after its last
    marker cleans to. *)
Theorem clean_text_after_last_marker (a b : jsstring) :
  ~ occurs (lit "<|END_USER|>") b ->
  clean_text (a ++ lit "<|END_USER|>" ++ b) = clean_text b.
Proof.
  intros Hb. unfold clean_text.
  destruct (strip_spec b) as (Hsame & _ & _). cbn zeta in Hsame.
  rewrite (Hsame Hb).
  destruct (strip_spec (a ++ lit "<|END_USER|>" ++ b)) as (_ & Hcut & Hno).
  cbn zeta in Hcut, Hno.
  destruct Hcut as [a' E]; [now exists a, b|].
  now rewrite <- (last_marker_unique _ _ _ _ E Hb Hno).
Qed.

Lemma clean_text_after_last_marker_witness :
  clean_text (lit "prompt<|END_USER|>more<|END_USER|> the answer ")
  = clean_text (lit " the answer ").
Proof.
  apply (clean_text_after_last_marker (lit "prompt<|END_USER|>more")
                                      (lit " the answer ")).
  intros Ho. apply (greedy_chars_none _ _ 0) in Ho; [exact Ho|].
  vm_compute. reflexivity.
Defined.

(** X14. Without a marker the content is the trimmed text, with one
    exception: a text that begins with a line feed followed by a letter
    loses that letter too. *)
Theorem clean_text_without_marker (text : jsstring) :
  ~ occurs (lit "<|END_USER|>") text ->
  (forall c rest,
      text = 10 :: c :: rest -> is_letter c = true ->
      clean_text text = StringOps.trim rest)
  /\ ((forall c rest, text = 10 :: c :: rest -> is_letter c = false) ->
      clean_text text = StringOps.trim text).
Proof.
  intros Hno. unfold clean_text.
  destruct (strip_spec text) as (Hsame & _ & _). cbn zeta in Hsame.
  rewrite (Hsame Hno), newline_letter_spec. split.
  - intros c rest -> Hc. now rewrite Hc.
  - intros H. destruct text as [|x s]; [reflexivity|].
    destruct (N.eqb_spec x 10) as [->|Hx].
    + destruct s as [|c rest]; [reflexivity|].
      now rewrite (H c rest eq_refl).
    + destruct x as [|x]; [reflexivity|].
      repeat (destruct x as [x|x|]; try reflexivity); congruence.
Qed.

Lemma clean_text_without_marker_witness :
  clean_text (10 :: lit "Hello there") = lit "ello there".
Proof.
  assert (Hno : ~ occurs (lit "<|END_USER|>") (10 :: lit "Hello there")).
  { intros Ho. apply (greedy_chars_none _ _ 0) in Ho; [exact Ho|].
    vm_compute. reflexivity. }
  apply (proj1 (clean_text_without_marker _ Hno) 72 (lit "ello there"));
    reflexivity.
Defined.

(** ** Streaming and non-streaming answers *)

Lemma concat_filter_nonempty (l : list jsstring) :
  List.concat (filter (fun t => 0 <? len t) l) = List.concat l.
Proof.
  induction l as [|t l IH]; [reflexivity|]. cbn [filter List.concat].
  destruct t as [|c t].
  - cbn. exact IH.
  - replace (0 <? len (c :: t)) with true
      by (symmetry; apply N.ltb_lt; unfold len; cbn [List.length]; lia).
    cbn [List.concat]. now rewrite IH.
Qed.

Section ResponseProperties.

Context {message_js : MessageJs} {node : NodeJs}.

(** The text of a chunk does not depend on the state of the call. *)
Lemma chunk_text_any_state (chunk : Buffer.t) (st st' : state) :
  fst (chunkToUtf8String chunk st) = fst (chunkToUtf8String chunk st').
Proof.
  rewrite !chunkToUtf8String_run.
  now destruct (parse chunk) as [[|t ts]|e].
Qed.

Lemma collect_text_run (chunks : list Buffer.t) (st0 : state) :
  forall text st,
    fst (collect_text chunks text st)
    = text ++ List.concat (map (fun c => fst (chunkToUtf8String c st0)) chunks).
Proof.
  induction chunks as [|c chunks IH]; intros text st.
  - cbn. now rewrite app_nil_r.
  - cbn [collect_text map List.concat]. unfold bind.
    pose proof (chunk_text_any_state c st st0) as Hc.
    destruct (chunkToUtf8String c st) as [t st1]. cbn [fst] in Hc.
    rewrite IH, Hc. now rewrite <- app_assoc.
Qed.

Lemma stream_deltas_run (chunks : list Buffer.t) (st0 : state) :
  forall written st,
    fst (stream_deltas chunks written st)
    = written ++ filter (fun t => 0 <? len t)
                        (map (fun c => fst (chunkToUtf8String c st0)) chunks).
Proof.
  induction chunks as [|c chunks IH]; intros written st.
  - cbn. now rewrite app_nil_r.
  - cbn [stream_deltas map filter]. unfold bind.
    pose proof (chunk_text_any_state c st st0) as Hc.
    destruct (chunkToUtf8String c st) as [t st1]. cbn [fst] in Hc.
    rewrite IH, Hc.
    destruct (0 <? len (fst (chunkToUtf8String c st0)));
      [now rewrite <- app_assoc | reflexivity].
Qed.

(** X15. In streaming mode one event is written for every chunk whose text
    is not empty, in chunk order, and none for the others; the content of
    the non-streaming answer to the same chunks is the clean-up of those
    texts put together. *)
Theorem stream_and_completion (chunks : list Buffer.t) (st st' : state) :
  let texts := map (fun c => fst (chunkToUtf8String c st)) chunks in
  let deltas := fst (stream_deltas chunks [] st) in
  deltas = filter (fun t => 0 <? len t) texts
  /\ Forall (fun d => d <> []) deltas
  /\ fst (completion_content chunks st') = clean_text (join deltas).
Proof.
  cbn zeta. rewrite (stream_deltas_run chunks st). cbn [app].
  repeat apply conj.
  - reflexivity.
  - apply Forall_forall. intros d Hd. apply filter_In in Hd.
    destruct Hd as [_ Hd]. intros ->. discriminate Hd.
  - unfold completion_content, bind.
    pose proof (collect_text_run chunks st [] st') as Hc.
    destruct (collect_text chunks [] st') as [text st1]. cbn [fst] in *.
    rewrite Hc. cbn [app]. unfold join.
    now rewrite concat_filter_nonempty.
Qed.

End ResponseProperties.

(** ** The authorization token *)

Lemma starts_with_before (p a : jsstring) (x : code_unit) (b : jsstring) :
  ~ In x p ->
  RegExp.starts_with p (a ++ x :: b) =
  match RegExp.starts_with p a with
  | Some rest => Some (rest ++ x :: b)
  | None => None
  end.
Proof.
  revert a. induction p as [|q p IH]; intros a Hx; [reflexivity|].
  destruct a as [|c a]; cbn [app RegExp.starts_with].
  - destruct (N.eqb_spec q x) as [->|_]; [|reflexivity].
    exfalso. apply Hx. now left.
  - destruct (q =? c); [|reflexivity]. apply IH. intros H. apply Hx. now right.
Qed.

Lemma replace_first_eq (p r s : jsstring) :
  StringOps.replace_first p r s =
  match RegExp.starts_with p s with
  | Some rest => r ++ rest
  | None =>
      match s with
      | [] => []
      | c :: s' => c :: StringOps.replace_first p r s'
      end
  end.
Proof. destruct s; reflexivity. Qed.

(** Replacing in front of a character that the pattern does not have. *)
Lemma replace_first_before (p a : jsstring) (x : code_unit) (b : jsstring) :
  ~ In x p -> ~ In x a ->
  ~ In x (StringOps.replace_first p [] a)
  /\ exists b',
       StringOps.replace_first p [] (a ++ x :: b)
       = StringOps.replace_first p [] a ++ x :: b'.
Proof.
  intros Hp. induction a as [|c a IH]; intros Ha.
  - rewrite (replace_first_eq p [] []), (replace_first_eq p [] ([] ++ x :: b)).
    rewrite starts_with_before by assumption.
    destruct (RegExp.starts_with p []) as [rest|] eqn:E.
    + apply starts_with_spec in E. destruct p; [|discriminate].
      cbn in E. subst rest. split; [auto|]. now exists b.
    + cbn [app]. split; [auto|]. eexists. reflexivity.
  - rewrite (replace_first_eq p [] (c :: a)),
      (replace_first_eq p [] ((c :: a) ++ x :: b)).
    rewrite starts_with_before by assumption.
    destruct (RegExp.starts_with p (c :: a)) as [rest|] eqn:E.
    + apply starts_with_spec in E. cbn [app]. split.
      * intros H. apply Ha. rewrite E. apply in_or_app. now right.
      * now exists b.
    + assert (Ha' : ~ In x a) by (intros H; apply Ha; now right).
      destruct (IH Ha') as [Hn [b' Eb]]. cbn [app]. split.
      * intros [->|H]; [apply Ha; now left | now apply Hn].
      * exists b'. now rewrite Eb.
Qed.

Lemma split_comma_first (a cur : jsstring) :
  ~ In 44 a ->
  (forall b, StringOps.split_from [44] (a ++ 44 :: b) cur 0
             = (cur ++ a) :: StringOps.split_from [44] b [] 0)
  /\ StringOps.split_from [44] a cur 0 = [cur ++ a].
Proof.
  revert cur. induction a as [|c a IH]; intros cur Ha.
  - split; [|cbn; now rewrite app_nil_r]. intros b. cbn. now rewrite app_nil_r.
  - assert (Hc : c <> 44) by (intros ->; apply Ha; now left).
    assert (Ha' : ~ In 44 a) by (intros H; apply Ha; now right).
    destruct (IH (cur ++ [c]) Ha') as [H1 H2].
    cbn [app StringOps.split_from RegExp.starts_with].
    destruct (N.eqb_spec 44 c) as [E|_]; [congruence|].
    split.
    + intros b. rewrite H1. now rewrite <- app_assoc.
    + rewrite H2. now rewrite <- app_assoc.
Qed.

(** X16. Of a comma-separated list of keys only the first is ever used:
    whatever follows the first comma of the authorization header has no
    influence on the token. *)
Theorem auth_token_first_key (a b : jsstring) :
  ~ In 44 a ->
  auth_token (Some (a ++ lit "," ++ b)) = auth_token (Some a).
Proof.
  intros Ha. unfold auth_token. cbn zeta.
  change (lit "," ++ b) with ((44 : code_unit) :: b).
  destruct (replace_first_before (lit "Bearer ") a 44 b) as [Hn [b' E]];
    [cbn; intuition discriminate | exact Ha |].
  rewrite E. unfold StringOps.split.
  destruct (split_comma_first (StringOps.replace_first (lit "Bearer ") [] a)
              [] Hn) as [H1 H2].
  change (lit ",") with [44]. rewrite H1, H2. reflexivity.
Qed.

Lemma auth_token_first_key_witness :
  auth_token (Some (lit "Bearer key-one" ++ lit "," ++ lit " key-two, key-three"))
  = auth_token (Some (lit "Bearer key-one")).
Proof.
  apply (auth_token_first_key (lit "Bearer key-one") (lit " key-two, key-three")).
  cbn. intuition discriminate.
Defined.

(** ** More runs on the sample runtime *)

Module MoreRuns.

Import Sample.

Lemma parse_normal_iff_witness :
  parse (frames [hi; bang] ++ [x00; x00]) = Normal [lit "hi"; lit "!"].
Proof.
  apply (proj2 (parse_normal_iff (frames [hi; bang] ++ [x00; x00])
                                 [lit "hi"; lit "!"])).
  exists [hi; bang], [x00; x00]. repeat apply conj.
  - reflexivity.
  - repeat constructor.
  - repeat (constructor; [eexists; split; reflexivity|]). constructor.
  - left. reflexivity.
Defined.

Lemma parse_throw_iff_witness :
  parse (frames [hi] ++ Spec.frame [xff] ++ [x01])
  = Throw (Error (lit "index out of range")).
Proof.
  apply (proj2 (parse_throw_iff (frames [hi] ++ Spec.frame [xff] ++ [x01])
                                (Error (lit "index out of range")))).
  exists [hi], [lit "hi"], [xff], [x01]. repeat apply conj.
  - reflexivity.
  - repeat constructor.
  - repeat (constructor; [eexists; split; reflexivity|]). constructor.
  - reflexivity.
  - reflexivity.
Defined.

Lemma cut_frame_is_dropped_witness :
  parse (frames [hi] ++ firstn 6 (Spec.frame bang)) = Normal [lit "hi"]
  /\ ([hi] = [] ->
      chunkToUtf8String (firstn 6 (Spec.frame bang)) st0
      = (gunzip_text (firstn 6 (Spec.frame bang)),
         after st0 [CallGunzip (firstn 6 (Spec.frame bang))])).
Proof.
  apply (cut_frame_is_dropped [hi] [lit "hi"] bang 6 st0).
  - repeat constructor.
  - repeat (constructor; [eexists; split; reflexivity|]). constructor.
  - reflexivity.
  - cbn. lia.
Defined.

Lemma short_chunk_falls_back_witness :
  chunkToUtf8String [x1f; x8b; x08] st0
  = (gunzip_text [], after st0 [CallGunzip [x1f; x8b; x08]]).
Proof. apply (short_chunk_falls_back [x1f; x8b; x08] st0). reflexivity. Defined.

Lemma stringToHex_read_back_witness :
  exists out,
    fst (stringToHex good_request (Str (lit "gpt-4o")) st0) = Normal out
    /\ out = Spec.frame (bytes_of "hiyo")
    /\ parse out = Throw (Error (lit "invalid wire type")).
Proof.
  apply (stringToHex_read_back good_request (Str (lit "gpt-4o")) st0);
    reflexivity.
Defined.

(** The roles and identifiers of the request built for two messages. *)
Example build_message_run_sample :
  let message := fst (build_message good_request (Str (lit "gpt-4o")) st0) in
  map role (messages message) = [1; 2]
  /\ map message_id (messages message) = [lit "uuid-0"; lit "uuid-1"]
  /\ requestId message = lit "uuid-2"
  /\ conversationId message = lit "uuid-3".
Proof. repeat split. Qed.

(** A request without an authorization header ends in the [TypeError] of
    line 35, before the check of line 51; an empty header gives the empty
    token, which that check refuses. *)
Example auth_token_edges :
  auth_token None
  = TypeError (lit "Cannot read properties of undefined (reading 'split')")
  /\ auth_token (Some []) = Token []
  /\ auth_token (Some (lit "Bearer  abc%3A%3Adef ,x")) = Token (lit "def")
  /\ auth_token (Some (lit "abc")) = Token (lit "abc").
Proof. repeat split. Qed.

Import SampleMath.

Example checksum_sample :
  List.length (fst (checksum None None (0 : N))) = 137%nat
  /\ firstn 8 (fst (checksum None None (0 : N))) = lit "zo07elsz"
  /\ checksum (Some (lit "abc")) (Some (lit "env")) (0 : N) = (lit "abc", 0)
  /\ checksum (Some []) (Some (lit "env")) (0 : N) = ([], 0).
Proof. repeat split; vm_compute; reflexivity. Qed.

End MoreRuns.
